(** * Dynamic time warping: cost table and backtracking (dtw.ipynb)

    A shallow embedding of the two functions of the notebook,
    [dtw_table] (the dynamic-programming cost table) and [dtw] (the
    backtracking loop), and the properties of the specification that
    are about them.

    Numbers.  The notebook computes with IEEE doubles.  Here a table
    entry is either [+inf] or a finite number taken from a carrier [R]
    with a zero, an addition and a strict comparison ([Num]).  The sum
    of two finite numbers is a table entry: it is [+inf] when the
    addition overflows.  NaN and negative infinity are not modelled.
    The laws the proofs rely on are collected in [NumLaws]; they do not
    include associativity.  The integers, where no sum overflows, are an
    instance and the carrier of the worked example of the notebook
    (integer samples, for which the Euclidean distance of two scalars is
    [|a - b|]); the binary64 numbers of the machine are the carrier of
    the examples with overflow.

    Indexing.  Python and numpy indices are integers: an index [k] into
    a sequence of length [n] is valid when [-n <= k < n], a negative one
    counts from the end, anything else raises [IndexError].  The
    backtracker computes [i-1] and [j-1] without a guard, so the
    embedding keeps indices in [Z] and keeps the wrap-around. *)

From Stdlib Require Import Floats.PrimFloat.
From stdpp Require Import base tactics option list list_numbers.
From Stdlib Require Import ZArith Lia.

Local Open Scope Z_scope.

(** ** Results of partial computations *)

Inductive exn := IndexError | UnboundLocalError.

(** [Timeout] is the embedding's own: the loop of [dtw] is run with a
    bound on the number of iterations. *)
Inductive res (A : Type) :=
  | Ok (a : A)
  | Raise (e : exn)
  | Timeout.
Arguments Ok {A} a.
Arguments Raise {A} e.
Arguments Timeout {A}.

#[global] Instance res_ret : MRet res := fun _ a => Ok a.
#[global] Instance res_bind : MBind res := fun _ _ f m =>
  match m with
  | Ok a => f a
  | Raise e => Raise e
  | Timeout => Timeout
  end.
Arguments res_bind _ _ _ !_ /.

(** ** Python indexing *)

(** The position an integer index [k] denotes in a sequence of length [n]. *)
Definition norm_index (n : nat) (k : Z) : res nat :=
  if (0 <=? k) && (k <? Z.of_nat n) then Ok (Z.to_nat k)
  else if (- Z.of_nat n <=? k) && (k <? 0) then Ok (Z.to_nat (k + Z.of_nat n))
  else Raise IndexError.

(** [l[k]] *)
Definition getitem {A} (l : list A) (k : Z) : res A :=
  p ← norm_index (length l) k;
  match l !! p with
  | Some a => Ok a
  | None => Raise IndexError
  end.

(** [range(a, b)] *)
Definition range (a b : Z) : list Z := seqZ a (b - a).

(** [for k in ks: s = body(k, s)] *)
Fixpoint for_each {S : Type} (ks : list Z) (body : Z → S → res S) (s : S) : res S :=
  match ks with
  | [] => Ok s
  | k :: ks' => s' ← body k s; for_each ks' body s'
  end.

(** ** Numbers *)

(** A table entry: a finite number or [numpy.inf]. *)
Inductive cost (R : Type) :=
  | Fin (r : R)
  | Inf.
Arguments Fin {R} r.
Arguments Inf {R}.

(** The finite values of the table: what [dtw_table] and [dtw] do with
    them is to start from zero, to add, and to compare with [<].  The
    sum [add a b] of two finite values is [Inf] when it overflows. *)
Class Num (R : Type) := {
  zero : R;
  add : R → R → cost R;
  ltb : R → R → bool;
}.

#[global] Instance Z_num : Num Z :=
  {| zero := 0; add := λ a b, Fin (a + b); ltb := Z.ltb |}.

Section Costs.
Context {R : Type} `{Num R}.

(** [a < b] *)
Definition clt (a b : cost R) : bool :=
  match a, b with
  | Fin r, Fin s => ltb r s
  | Fin _, Inf => true
  | Inf, _ => false
  end.

(** [a + b] *)
Definition cadd (a b : cost R) : cost R :=
  match a, b with
  | Fin r, Fin s => add r s
  | _, _ => Inf
  end.

(** Python's [min(a, b, c)]: the first of the smallest arguments. *)
Definition min3 (a b c : cost R) : cost R :=
  let m := a in
  let m := if clt b m then b else m in
  let m := if clt c m then c else m in
  m.

(** [a >= b] *)
Definition cge (a b : cost R) : bool := negb (clt a b).

(** [max(a, b, c)] *)
Definition max3 (a b c : cost R) : cost R :=
  let m := a in
  let m := if clt m b then b else m in
  let m := if clt m c then c else m in
  m.

Definition is_fin (a : cost R) : Prop := ∃ r, a = Fin r.
End Costs.

(** Addition is commutative, [<] is a strict total order, and adding a
    number that is not negative does not make a sum smaller.  Binary64
    addition, rounded and overflowing, has these properties on finite
    numbers (with its two zeros taken as one). *)
Class NumLaws (R : Type) `{Num R} : Prop := {
  add_comm : ∀ a b : R, add a b = add b a;
  ltb_irrefl : ∀ a : R, ltb a a = false;
  ltb_trans : ∀ a b c : R, ltb a b = true → ltb b c = true → ltb a c = true;
  ltb_total : ∀ a b : R, ltb a b = false → ltb b a = false → a = b;
  add_nonneg : ∀ d a : R, ltb d zero = false → clt (add d a) (Fin a) = false;
}.

(** ** The cost table *)

(** A two-dimensional numpy array, row by row. *)
Abbreviation table R := (list (list (cost R))) (only parsing).

Section Table.
Context {R : Type} `{Num R}.

(** [numpy.zeros((n, m))] *)
Definition zeros (n m : nat) : table R := replicate n (replicate m (Fin zero)).

(** [t[i, j]] (and [t[i][j]], which reads the same cell) *)
Definition getitem2 (t : table R) (i j : Z) : res (cost R) :=
  row ← getitem t i; getitem row j.

(** [t[i, j] = v] *)
Definition setitem2 (t : table R) (i j : Z) (v : cost R) : res (table R) :=
  p ← norm_index (length t) i;
  match t !! p with
  | Some row =>
      q ← norm_index (length row) j;
      Ok (<[p := <[q := v]> row]> t)
  | None => Raise IndexError
  end.

(** [t[1:, 0] = v] *)
Definition set_column0_from1 (t : table R) (v : cost R) : table R :=
  take 1 t ++ ((λ row, <[0%nat := v]> row) <$> drop 1 t).

(** [t[0, 1:] = v] *)
Definition set_row0_from1 (t : table R) (v : cost R) : table R :=
  alter (λ row, take 1 row ++ ((λ _, v) <$> drop 1 row)) 0%nat t.
End Table.

(** ** The two functions of the notebook *)

Section DTW.
Context {R : Type} `{Num R}.
Context {obs : Type}.
(** [scipy.spatial.distance.euclidean], or any other distance. *)
Variable distance : obs → obs → R.

Definition dtw_table (x y : list obs) : res (table R) :=
  let nx := length x in
  let ny := length y in
  let table := zeros (nx + 1) (ny + 1) in
  (* Compute left column separately, i.e. j=0. *)
  let table := set_column0_from1 table Inf in
  (* Compute top row separately, i.e. i=0. *)
  let table := set_row0_from1 table Inf in
  (* Fill in the rest. *)
  for_each (range 1 (Z.of_nat nx + 1)) (λ i table,
    for_each (range 1 (Z.of_nat ny + 1)) (λ j table,
      xi ← getitem x (i - 1);
      yj ← getitem y (j - 1);
      let d := distance xi yj in
      a ← getitem2 table (i - 1) j;
      b ← getitem2 table i (j - 1);
      c ← getitem2 table (i - 1) (j - 1);
      setitem2 table i j (cadd (Fin d) (min3 a b c))) table) table.

(** The three [if]s of one iteration of the loop of [dtw]: from the
    variable [step] as the previous iteration left it ([None] when it
    was never assigned) to its value before [path.insert(0, step)]. *)
Definition dtw_body (table : table R) (i j : Z) (step : option (Z * Z))
  : res (option (Z * Z)) :=
  let minval := Inf in
  a ← getitem2 table (i - 1) j;
  let '(minval, step) :=
    if clt a minval then (a, Some (i - 1, j)) else (minval, step) in
  b ← getitem2 table i (j - 1);
  let '(minval, step) :=
    if clt b minval then (b, Some (i, j - 1)) else (minval, step) in
  c ← getitem2 table (i - 1) (j - 1);
  let '(minval, step) :=
    if clt c minval then (c, Some (i - 1, j - 1)) else (minval, step) in
  Ok step.

(** [while i > 0 or j > 0: ...], at most [fuel] tests of the condition. *)
Fixpoint dtw_loop (fuel : nat) (table : table R) (i j : Z)
    (step : option (Z * Z)) (path : list (Z * Z)) : res (list (Z * Z)) :=
  match fuel with
  | O => Timeout
  | S fuel' =>
      if (0 <? i) || (0 <? j) then
        step ← dtw_body table i j step;
        match step with
        | None => Raise UnboundLocalError
        | Some (i', j') => dtw_loop fuel' table i' j' step ((i', j') :: path)
        end
      else Ok path
  end.

Definition dtw (fuel : nat) (x y : list obs) (table : table R) : res (list (Z * Z)) :=
  let i := Z.of_nat (length x) in
  let j := Z.of_nat (length y) in
  let path := [(i, j)] in
  dtw_loop fuel table i j None path.
End DTW.

(** ** The check of the notebook on the path *)

Section Check.
Context {R : Type} `{Num R}.
Context {obs : Type}.
(** [abs(a - b)] in the notebook. *)
Variable distance : obs → obs → R.

(** [sum(abs(x[i-1] - y[j-1]) for (i, j) in path if i >= 0 and j >= 0)],
    added up from [acc]. *)
Fixpoint check_sum_from (x y : list obs) (path : list (Z * Z)) (acc : cost R)
  : res (cost R) :=
  match path with
  | [] => Ok acc
  | (i, j) :: path' =>
      if (0 <=? i) && (0 <=? j) then
        xi ← getitem x (i - 1);
        yj ← getitem y (j - 1);
        check_sum_from x y path' (cadd acc (Fin (distance xi yj)))
      else check_sum_from x y path' acc
  end.

Definition check_sum (x y : list obs) (path : list (Z * Z)) : res (cost R) :=
  check_sum_from x y path (Fin zero).
End Check.

(** ** Concatenating segments *)

(** What numpy returns or raises here. *)
Inductive np_result (A : Type) :=
  | Array (a : A)
  | ValueError.
Arguments Array {A} a.
Arguments ValueError {A}.

#[global] Instance np_result_ret : MRet np_result := fun _ a => Array a.
#[global] Instance np_result_bind : MBind np_result := fun _ _ f m =>
  match m with
  | Array a => f a
  | ValueError => ValueError
  end.
Arguments np_result_bind _ _ _ !_ /.

Section Segments.
Context {sample : Type}.
(** The sample [0.0]. *)
Variable silence : sample.

(** [numpy.zeros(n)]: a negative length is refused. *)
Definition np_zeros (n : Z) : np_result (list sample) :=
  if n <? 0 then ValueError else Array (replicate (Z.to_nat n) silence).

(** [numpy.concatenate(arrays)] on one-dimensional arrays: it needs at
    least one array. *)
Definition np_concatenate (arrays : list (list sample)) : np_result (list sample) :=
  match arrays with
  | [] => ValueError
  | _ :: _ => Array (concat arrays)
  end.

(** [[numpy.concatenate([segment, numpy.zeros(pad)]) for segment in segments]] *)
Fixpoint padded_segments (segments : list (list sample)) (pad : Z)
  : np_result (list (list sample)) :=
  match segments with
  | [] => Array []
  | segment :: segments' =>
      z ← np_zeros pad;
      padded ← np_concatenate [segment; z];
      rest ← padded_segments segments' pad;
      Array (padded :: rest)
  end.

(** [concatenate_segments(segments, fs, pad_time)], where [pad] is the
    number of samples [int(pad_time*fs)] that the source computes in
    floating point, and every segment is a one-dimensional array.  What
    the source does when that product is NaN or infinite, or when a
    segment is not one-dimensional, is outside this embedding. *)
Definition concatenate_segments (segments : list (list sample)) (pad : Z)
  : np_result (list sample) :=
  padded ← padded_segments segments pad;
  np_concatenate padded.
End Segments.

(** ** The example of the notebook *)

Module Example.
Definition x : list Z := [0; 4; 4; 0; -4; -4; 0].
Definition y : list Z := [1; 3; 4; 3; 1; -1; -2; -1; 0].
(** The Euclidean distance of two scalars. *)
Definition euclidean (a b : Z) : Z := Z.abs (a - b).

(** The table the notebook prints for them. *)
Definition cost_table : table Z :=
  [[Fin 0; Inf; Inf; Inf; Inf; Inf; Inf; Inf; Inf; Inf];
   [Inf; Fin 1; Fin 4; Fin 8; Fin 11; Fin 12; Fin 13; Fin 15; Fin 16; Fin 16];
   [Inf; Fin 4; Fin 2; Fin 2; Fin 3; Fin 6; Fin 11; Fin 17; Fin 20; Fin 20];
   [Inf; Fin 7; Fin 3; Fin 2; Fin 3; Fin 6; Fin 11; Fin 17; Fin 22; Fin 24];
   [Inf; Fin 8; Fin 6; Fin 6; Fin 5; Fin 4; Fin 5; Fin 7; Fin 8; Fin 8];
   [Inf; Fin 13; Fin 13; Fin 14; Fin 12; Fin 9; Fin 7; Fin 7; Fin 10; Fin 12];
   [Inf; Fin 18; Fin 20; Fin 21; Fin 19; Fin 14; Fin 10; Fin 9; Fin 10; Fin 14];
   [Inf; Fin 19; Fin 21; Fin 24; Fin 22; Fin 15; Fin 11; Fin 11; Fin 10; Fin 10]].

(** The table of the two sequences swapped. *)
Definition swapped_cost_table : table Z :=
  [[Fin 0; Inf; Inf; Inf; Inf; Inf; Inf; Inf];
   [Inf; Fin 1; Fin 4; Fin 7; Fin 8; Fin 13; Fin 18; Fin 19];
   [Inf; Fin 4; Fin 2; Fin 3; Fin 6; Fin 13; Fin 20; Fin 21];
   [Inf; Fin 8; Fin 2; Fin 2; Fin 6; Fin 14; Fin 21; Fin 24];
   [Inf; Fin 11; Fin 3; Fin 3; Fin 5; Fin 12; Fin 19; Fin 22];
   [Inf; Fin 12; Fin 6; Fin 6; Fin 4; Fin 9; Fin 14; Fin 15];
   [Inf; Fin 13; Fin 11; Fin 11; Fin 5; Fin 7; Fin 10; Fin 11];
   [Inf; Fin 15; Fin 17; Fin 17; Fin 7; Fin 7; Fin 9; Fin 11];
   [Inf; Fin 16; Fin 20; Fin 22; Fin 8; Fin 10; Fin 10; Fin 10];
   [Inf; Fin 16; Fin 20; Fin 24; Fin 8; Fin 12; Fin 14; Fin 10]].

(** The path the notebook prints for them. *)
Definition path : list (Z * Z) :=
  [(0, 0); (1, 1); (2, 2); (2, 3); (3, 3); (3, 4); (4, 5); (4, 6);
   (5, 7); (6, 7); (7, 8); (7, 9)].
End Example.

(** Two equal constant sequences: every interior cell of the table is
    [0], so the candidates tie at every state. *)
Module Tie.
Definition x : list Z := [0; 0].
Definition cost_table : table Z :=
  [[Fin 0; Inf; Inf];
   [Inf; Fin 0; Fin 0];
   [Inf; Fin 0; Fin 0]].
Definition path : list (Z * Z) := [(0, 0); (1, 1); (1, 2); (2, 2)].
End Tie.

(** Binary64, the numbers of the notebook.  A sum that is not below
    [+inf] is the table entry [Inf]; the sums of the examples below are
    never NaN. *)
Module Binary64.
Definition entry (s : float) : cost float :=
  if PrimFloat.ltb s PrimFloat.infinity then Fin s else Inf.

#[global] Instance num : Num float :=
  {| zero := 0%float;
     add := λ a b, entry (PrimFloat.add a b);
     ltb := PrimFloat.ltb |}.

(** The Euclidean distance of two scalars. *)
Definition euclidean (a b : float) : float := PrimFloat.abs (PrimFloat.sub a b).

(** Three samples of [2.0**1023] against one sample [0.0]: the second
    cumulative sum overflows. *)
Definition x : list float := [0x1p1023; 0x1p1023; 0x1p1023]%float.
Definition y : list float := [0%float].
Definition cost_table : table float :=
  [[Fin 0%float; Inf];
   [Inf; Fin 0x1p1023%float];
   [Inf; Inf];
   [Inf; Inf]].
End Binary64.

(** ** Notions the properties are stated with *)

(** One step forward along a path: [(+1, 0)], [(0, +1)] or [(+1, +1)]. *)
Definition is_move (a b : Z * Z) : Prop :=
  b = (a.1 + 1, a.2) ∨ b = (a.1, a.2 + 1) ∨ b = (a.1 + 1, a.2 + 1).

Section Notions.
Context {R : Type} `{Num R}.
Context {obs : Type}.
Implicit Types (t : table R) (a b c : cost R).

(** The sum of [distance(x[i-1], y[j-1])] over the elements [(i, j)] of
    a path with [i > 0] and [j > 0], added up from [acc] in the order
    of the path, as Python's [sum] does; the sum is [+inf] once an
    addition overflows.  (The cell of the notebook that
    checks the example filters on [i >= 0 and j >= 0] instead, and so
    also counts [(0, 0)], as [distance(x[-1], y[-1])].) *)
Fixpoint path_cost_from (distance : obs → obs → R) (x y : list obs)
    (path : list (Z * Z)) (acc : cost R) : res (cost R) :=
  match path with
  | [] => Ok acc
  | (i, j) :: path' =>
      if (0 <? i) && (0 <? j) then
        xi ← getitem x (i - 1);
        yj ← getitem y (j - 1);
        path_cost_from distance x y path' (cadd acc (Fin (distance xi yj)))
      else path_cost_from distance x y path' acc
  end.

Definition path_cost (distance : obs → obs → R) (x y : list obs)
    (path : list (Z * Z)) : res (cost R) :=
  path_cost_from distance x y path (Fin zero).

(** The up and the left candidate carry the same finite value and the
    diagonal one is not smaller: the loop then steps up, whichever of
    the two sequences comes first. *)
Definition tied a b c : bool :=
  clt a Inf && negb (clt a b) && negb (clt b a) && negb (clt c a).

(** Such a tie at a state where the body of the loop runs. *)
Definition tie_at t (s : Z * Z) : bool :=
  ((0 <? s.1) || (0 <? s.2)) &&
  match getitem2 t (s.1 - 1) s.2, getitem2 t s.1 (s.2 - 1),
        getitem2 t (s.1 - 1) (s.2 - 1) with
  | Ok a, Ok b, Ok c => tied a b c
  | _, _, _ => false
  end.

(** No state of the path has such a tie. *)
Definition tie_free t (path : list (Z * Z)) : bool :=
  forallb (λ s, negb (tie_at t s)) path.

End Notions.

(** C7 as the specification states it, at one cell: the entry is finite
    and at least the maximum of its three predecessors. *)
Definition at_least_max_of_predecessors {R : Type} `{Num R}
    (t : table R) (i j : Z) : Prop :=
  ∃ v a b c,
    getitem2 t i j = Ok v ∧
    getitem2 t (i - 1) j = Ok a ∧ getitem2 t i (j - 1) = Ok b ∧
    getitem2 t (i - 1) (j - 1) = Ok c ∧
    is_fin v ∧ cge v (max3 a b c) = true.

(** * Proofs *)

#[global] Instance Z_num_laws : NumLaws Z.
Proof.
  split; simpl.
  - intros; f_equal; lia.
  - apply Z.ltb_irrefl.
  - intros a b c ?%Z.ltb_lt ?%Z.ltb_lt. apply Z.ltb_lt. lia.
  - intros a b ?%Z.ltb_ge ?%Z.ltb_ge. lia.
  - intros d a ?%Z.ltb_ge. apply Z.ltb_ge. lia.
Qed.

(** ** Indexing *)

Lemma norm_index_nonneg (n : nat) (k : Z) :
  0 ≤ k →
  norm_index n k = if k <? Z.of_nat n then Ok (Z.to_nat k) else Raise IndexError.
Proof.
  intros Hk. unfold norm_index.
  destruct (Z.leb_spec 0 k); [|lia].
  destruct (Z.ltb_spec k (Z.of_nat n)); simpl; [done|].
  destruct (Z.ltb_spec k 0); [lia|]. by rewrite andb_false_r.
Qed.

Lemma norm_index_neg (n : nat) (k : Z) :
  k < 0 →
  norm_index n k =
    if - Z.of_nat n <=? k then Ok (Z.to_nat (k + Z.of_nat n)) else Raise IndexError.
Proof.
  intros Hk. unfold norm_index.
  destruct (Z.leb_spec 0 k); [lia|]. simpl.
  destruct (Z.ltb_spec k 0); [|lia]. by rewrite andb_true_r.
Qed.

Lemma norm_index_Ok (n : nat) (k : Z) (p : nat) :
  norm_index n k = Ok p → (p < n)%nat.
Proof.
  unfold norm_index.
  destruct (Z.leb_spec 0 k), (Z.ltb_spec k (Z.of_nat n)); simpl;
    try (intros [= <-]; lia);
    destruct (Z.leb_spec (- Z.of_nat n) k), (Z.ltb_spec k 0); simpl;
    try done; intros [= <-]; lia.
Qed.

Lemma getitem_nonneg {A} (l : list A) (k : Z) :
  0 ≤ k →
  getitem l k = match l !! Z.to_nat k with Some a => Ok a | None => Raise IndexError end.
Proof.
  intros Hk. unfold getitem. rewrite norm_index_nonneg by done.
  destruct (Z.ltb_spec k (Z.of_nat (length l))); simpl; [done|].
  by rewrite lookup_ge_None_2 by lia.
Qed.

Lemma getitem_Ok_lookup {A} (l : list A) (k : Z) (a : A) :
  0 ≤ k → getitem l k = Ok a ↔ l !! Z.to_nat k = Some a.
Proof.
  intros Hk. rewrite getitem_nonneg by done.
  destruct (l !! Z.to_nat k); split; congruence.
Qed.

Section TableLemmas.
Context {R : Type} `{Num R}.
Implicit Types (t : table R) (v : cost R).

(** Reading a cell at non-negative positions, through list lookups. *)
Definition lookup2 t (p q : nat) : option (cost R) := t !! p ≫= (.!! q).

Lemma getitem2_nonneg t (i j : Z) :
  0 ≤ i → 0 ≤ j →
  getitem2 t i j =
    match lookup2 t (Z.to_nat i) (Z.to_nat j) with
    | Some v => Ok v
    | None => Raise IndexError
    end.
Proof.
  intros Hi Hj. unfold getitem2, lookup2. rewrite getitem_nonneg by done.
  destruct (t !! Z.to_nat i) as [row|]; simpl; [|done].
  by rewrite getitem_nonneg.
Qed.

Lemma getitem2_Ok_lookup2 t (i j : Z) v :
  0 ≤ i → 0 ≤ j →
  getitem2 t i j = Ok v ↔ lookup2 t (Z.to_nat i) (Z.to_nat j) = Some v.
Proof.
  intros Hi Hj. rewrite getitem2_nonneg by done.
  destruct (lookup2 _ _ _); split; congruence.
Qed.

Lemma setitem2_nonneg t (i j : Z) v u :
  0 ≤ i → 0 ≤ j →
  lookup2 t (Z.to_nat i) (Z.to_nat j) = Some u →
  ∃ row, t !! Z.to_nat i = Some row ∧
    setitem2 t i j v = Ok (<[Z.to_nat i := <[Z.to_nat j := v]> row]> t).
Proof.
  intros Hi Hj. unfold lookup2, setitem2.
  destruct (t !! Z.to_nat i) as [row|] eqn:Hrow; simpl; [|done].
  intros Hu. exists row. split; [done|].
  apply lookup_lt_Some in Hrow as Hlt. apply lookup_lt_Some in Hu as Hlt'.
  rewrite norm_index_nonneg by done.
  destruct (Z.ltb_spec i (Z.of_nat (length t))); [|lia]. simpl.
  rewrite Hrow. rewrite norm_index_nonneg by done.
  destruct (Z.ltb_spec j (Z.of_nat (length row))); [|lia]. done.
Qed.

Lemma lookup2_insert t (p q p' q' : nat) row v :
  t !! p = Some row → (q < length row)%nat →
  lookup2 (<[p := <[q := v]> row]> t) p' q' =
    if decide (p' = p ∧ q' = q) then Some v else lookup2 t p' q'.
Proof.
  intros Hrow Hq. unfold lookup2. apply lookup_lt_Some in Hrow as Hp.
  destruct (decide (p' = p)) as [->|Hne].
  - rewrite list_lookup_insert_eq by done. simpl. rewrite Hrow. simpl.
    destruct (decide (q' = q)) as [->|Hne'].
    + rewrite list_lookup_insert_eq by done. by rewrite decide_True.
    + rewrite list_lookup_insert_ne by done. rewrite decide_False; [done|tauto].
  - rewrite list_lookup_insert_ne by done. rewrite decide_False; [done|tauto].
Qed.

(** The shape of a table: [n] rows of [m] entries each. *)
Definition shape (n m : nat) t : Prop :=
  length t = n ∧ Forall (λ row, length row = m) t.

Lemma shape_insert n m t (p q : nat) row v :
  shape n m t → t !! p = Some row →
  shape n m (<[p := <[q := v]> row]> t).
Proof.
  intros [Hn Hm] Hrow. split; [by rewrite length_insert|].
  apply Forall_insert; [done|]. rewrite length_insert.
  by apply (Forall_lookup_1 _ _ _ _ Hm Hrow).
Qed.

Lemma shape_lookup2 n m t (p q : nat) :
  shape n m t → (p < n)%nat → (q < m)%nat → is_Some (lookup2 t p q).
Proof.
  intros [Hn Hm] Hp Hq. unfold lookup2.
  destruct (lookup_lt_is_Some_2 t p) as [row Hrow]; [lia|].
  rewrite Hrow. simpl. apply lookup_lt_is_Some_2.
  by rewrite (Forall_lookup_1 _ _ _ _ Hm Hrow).
Qed.
End TableLemmas.

(** ** Loops *)

(** A loop over [seqZ a n] establishes [P (a + n)] from [P a] when its
    body takes [P k] to [P (k + 1)] without raising. *)
Lemma for_each_seqZ_inv {St : Type} (P : Z → St → Prop) (body : Z → St → res St)
    (a n : Z) (s : St) :
  0 ≤ n →
  P a s →
  (∀ k s, a ≤ k < a + n → P k s → ∃ s', body k s = Ok s' ∧ P (k + 1) s') →
  ∃ s', for_each (seqZ a n) body s = Ok s' ∧ P (a + n) s'.
Proof.
  intros Hn. rewrite <-(Z2Nat.id n) by done.
  generalize (Z.to_nat n) as m. clear n Hn. intros m. revert a s.
  induction m as [|m IH]; intros a s HP Hbody.
  - rewrite seqZ_nil by lia. simpl. exists s. by rewrite Z.add_0_r.
  - rewrite seqZ_cons by lia. simpl.
    destruct (Hbody a s) as (s1 & -> & HP1); [lia|done|]. simpl.
    replace (Z.pred (Z.of_nat (S m))) with (Z.of_nat m) by lia.
    destruct (IH (Z.succ a) s1) as (s2 & Hs2 & HP2).
    + by replace (Z.succ a) with (a + 1) by lia.
    + intros k s' Hk. apply Hbody. lia.
    + exists s2. split; [done|].
      by replace (a + Z.of_nat (S m)) with (Z.succ a + Z.of_nat m) by lia.
Qed.

(** A loop whose body leaves the state alone leaves it alone. *)
Lemma for_each_skip {St : Type} (body : Z → St → res St) (ks : list Z) (s : St) :
  (∀ k, body k s = Ok s) → for_each ks body s = Ok s.
Proof. intros Hbody. induction ks as [|k ks IH]; simpl; [done|]. by rewrite Hbody. Qed.

(** ** The cost table: what [dtw_table] builds *)

Lemma getitem_in_range {A} (l : list A) (k : Z) :
  0 ≤ k < Z.of_nat (length l) → ∃ a, getitem l k = Ok a.
Proof.
  intros Hk. destruct (lookup_lt_is_Some_2 l (Z.to_nat k)) as [a Ha]; [lia|].
  exists a. apply getitem_Ok_lookup; [lia|done].
Qed.

Section TableUpdates.
Context {R : Type} `{Num R}.
Implicit Types (t : table R) (v : cost R).

Lemma getitem2_in_range n m t (i j : Z) :
  shape n m t → 0 ≤ i < Z.of_nat n → 0 ≤ j < Z.of_nat m →
  ∃ v, getitem2 t i j = Ok v.
Proof.
  intros Hsh Hi Hj.
  destruct (shape_lookup2 n m t (Z.to_nat i) (Z.to_nat j)) as [v Hv];
    [done|lia|lia|].
  exists v. apply getitem2_Ok_lookup2; [lia|lia|done].
Qed.

Lemma getitem2_setitem2 n m t (i j : Z) v :
  shape n m t → 0 ≤ i < Z.of_nat n → 0 ≤ j < Z.of_nat m →
  ∃ t', setitem2 t i j v = Ok t' ∧ shape n m t' ∧
    ∀ i' j', 0 ≤ i' → 0 ≤ j' →
      getitem2 t' i' j' =
        if decide (i' = i ∧ j' = j) then Ok v else getitem2 t i' j'.
Proof.
  intros Hsh Hi Hj.
  destruct (shape_lookup2 n m t (Z.to_nat i) (Z.to_nat j)) as [u Hu];
    [done|lia|lia|].
  destruct (setitem2_nonneg t i j v u) as (row & Hrow & Hset); [lia|lia|done|].
  eexists. split; [exact Hset|]. split; [by apply shape_insert|].
  intros i' j' Hi' Hj'. rewrite !getitem2_nonneg by done.
  rewrite lookup2_insert; [|done|].
  - destruct (decide (Z.to_nat i' = Z.to_nat i ∧ Z.to_nat j' = Z.to_nat j))
      as [[]|Hne].
    + rewrite decide_True; [done|lia].
    + rewrite decide_False; [done|lia].
  - destruct Hsh as [_ Hm]. rewrite (Forall_lookup_1 _ _ _ _ Hm Hrow). lia.
Qed.

(** The table before the loops: zeros, then the left column and the
    top row set to [inf]. *)
Lemma initial_table (nx ny : nat) :
  set_row0_from1 (set_column0_from1 (zeros (nx + 1) (ny + 1)) Inf) Inf =
  (Fin zero :: replicate ny Inf) :: replicate nx (Inf :: replicate ny (Fin zero)).
Proof.
  unfold zeros. rewrite !Nat.add_1_r. simpl.
  unfold set_column0_from1, set_row0_from1. simpl.
  by rewrite !drop_0, !fmap_replicate.
Qed.

Lemma initial_table_shape (nx ny : nat) :
  shape (S nx) (S ny)
    ((Fin zero :: replicate ny Inf) :: replicate nx (Inf :: replicate ny (Fin zero))).
Proof.
  split; simpl; [by rewrite length_replicate|].
  constructor; simpl; [by rewrite length_replicate|].
  apply Forall_replicate. simpl. by rewrite length_replicate.
Qed.

Lemma initial_table_lookup2 (nx ny p q : nat) :
  (p ≤ nx)%nat → (q ≤ ny)%nat →
  lookup2 ((Fin zero :: replicate ny Inf)
             :: replicate nx (Inf :: replicate ny (Fin zero))) p q =
  Some (match p, q with
        | O, O => Fin zero
        | O, _ | _, O => Inf
        | _, _ => Fin zero
        end).
Proof.
  intros Hp Hq. unfold lookup2. destruct p as [|p]; simpl.
  - destruct q as [|q]; simpl; [done|]. by rewrite lookup_replicate_2 by lia.
  - rewrite lookup_replicate_2 by lia. simpl.
    destruct q as [|q]; simpl; [done|]. by rewrite lookup_replicate_2 by lia.
Qed.
End TableUpdates.

Section TableSpec.
Context {R : Type} `{Num R}.
Context {obs : Type}.
Variable distance : obs → obs → R.
Variables x y : list obs.

Local Abbreviation nx := (Z.of_nat (length x)).
Local Abbreviation ny := (Z.of_nat (length y)).

(** Cell [(i, j)] holds the value of the recurrence. *)
Definition rec_at (t : table R) (i j : Z) : Prop :=
  ∃ xi yj a b c,
    getitem x (i - 1) = Ok xi ∧ getitem y (j - 1) = Ok yj ∧
    getitem2 t (i - 1) j = Ok a ∧ getitem2 t i (j - 1) = Ok b ∧
    getitem2 t (i - 1) (j - 1) = Ok c ∧
    getitem2 t i j = Ok (cadd (Fin (distance xi yj)) (min3 a b c)).

(** The loop invariant of [dtw_table]: the table has its shape and
    its boundary, and the cells before [(i, j)] in row-major order
    are filled. *)
Record filled (i j : Z) (t : table R) : Prop := {
  fl_shape : shape (S (length x)) (S (length y)) t;
  fl_origin : getitem2 t 0 0 = Ok (Fin zero);
  fl_col0 : ∀ i', 1 ≤ i' ≤ nx → getitem2 t i' 0 = Ok Inf;
  fl_row0 : ∀ j', 1 ≤ j' ≤ ny → getitem2 t 0 j' = Ok Inf;
  fl_rec : ∀ i' j', 1 ≤ i' ≤ nx → 1 ≤ j' ≤ ny →
    i' < i ∨ (i' = i ∧ j' < j) → rec_at t i' j';
}.

(** What the specification says of a finished table. *)
Definition is_dtw_table (t : table R) : Prop := filled (nx + 1) 1 t.

Lemma filled_initial :
  filled 1 1 ((Fin zero :: replicate (length y) Inf)
                :: replicate (length x) (Inf :: replicate (length y) (Fin zero))).
Proof.
  split.
  - apply initial_table_shape.
  - by apply getitem2_Ok_lookup2.
  - intros i' Hi'. apply getitem2_Ok_lookup2; [lia|lia|].
    rewrite initial_table_lookup2 by lia.
    destruct (Z.to_nat i') eqn:E; [lia|done].
  - intros j' Hj'. apply getitem2_Ok_lookup2; [lia|lia|].
    rewrite initial_table_lookup2 by lia.
    simpl. destruct (Z.to_nat j') eqn:E; [lia|done].
  - intros i' j' Hi' Hj' ?. lia.
Qed.

Lemma filled_next_row (i : Z) (t : table R) :
  filled i (ny + 1) t → filled (i + 1) 1 t.
Proof.
  intros [Hsh H0 Hc Hr Hrec]. split; try done.
  intros i' j' Hi' Hj' Hlt. apply Hrec; [done|done|lia].
Qed.

(** One assignment [table[i, j] = d + min(...)] of the inner loop. *)
Lemma filled_step (i j : Z) (t : table R) :
  1 ≤ i ≤ nx → 1 ≤ j ≤ ny → filled i j t →
  ∃ t',
    (xi ← getitem x (i - 1);
     yj ← getitem y (j - 1);
     let d := distance xi yj in
     a ← getitem2 t (i - 1) j;
     b ← getitem2 t i (j - 1);
     c ← getitem2 t (i - 1) (j - 1);
     setitem2 t i j (cadd (Fin d) (min3 a b c))) = Ok t' ∧
    filled i (j + 1) t'.
Proof.
  intros Hi Hj [Hsh H0 Hc Hr Hrec].
  destruct (getitem_in_range x (i - 1)) as [xi Hxi]; [lia|].
  destruct (getitem_in_range y (j - 1)) as [yj Hyj]; [lia|].
  destruct (getitem2_in_range _ _ t (i - 1) j Hsh) as [a Ha]; [lia|lia|].
  destruct (getitem2_in_range _ _ t i (j - 1) Hsh) as [b Hb]; [lia|lia|].
  destruct (getitem2_in_range _ _ t (i - 1) (j - 1) Hsh) as [c Hc']; [lia|lia|].
  destruct (getitem2_setitem2 _ _ t i j
              (cadd (Fin (distance xi yj)) (min3 a b c)) Hsh)
    as (t' & Hset & Hsh' & Hget); [lia|lia|].
  exists t'. rewrite Hxi, Hyj. simpl. rewrite Ha, Hb, Hc'. simpl.
  split; [done|].
  assert (Hother : ∀ i' j', 0 ≤ i' → 0 ≤ j' → ¬ (i' = i ∧ j' = j) →
            getitem2 t' i' j' = getitem2 t i' j').
  { intros i' j' ? ? Hne. rewrite Hget by done. by rewrite decide_False. }
  split; try done.
  - rewrite Hother; [done|lia|lia|lia].
  - intros i' Hi'. rewrite Hother; [by apply Hc|lia|lia|lia].
  - intros j' Hj'. rewrite Hother; [by apply Hr|lia|lia|lia].
  - intros i' j' Hi' Hj' Hlt.
    destruct (decide (i' = i ∧ j' = j)) as [[-> ->]|Hne].
    + exists xi, yj, a, b, c.
      rewrite !Hother by lia. rewrite Hget by lia.
      rewrite decide_True by done. done.
    + destruct (Hrec i' j') as (xi' & yj' & a' & b' & c' & ? & ? & ? & ? & ? & ?);
        [done|done|lia|].
      exists xi', yj', a', b', c'. rewrite !Hother by lia. done.
Qed.

(** [dtw_table] does not raise, and its result is the table of the
    specification. *)
Lemma dtw_table_spec : ∃ t, dtw_table distance x y = Ok t ∧ is_dtw_table t.
Proof.
  unfold dtw_table, is_dtw_table, range. rewrite initial_table.
  cut (∀ n, n = nx + 1 - 1 → ∃ t,
         for_each (seqZ 1 n) (λ i table,
           for_each (seqZ 1 (ny + 1 - 1)) (λ j table,
             xi ← getitem x (i - 1);
             yj ← getitem y (j - 1);
             let d := distance xi yj in
             a ← getitem2 table (i - 1) j;
             b ← getitem2 table i (j - 1);
             c ← getitem2 table (i - 1) (j - 1);
             setitem2 table i j (cadd (Fin d) (min3 a b c))) table)
           ((Fin zero :: replicate (length y) Inf)
              :: replicate (length x) (Inf :: replicate (length y) (Fin zero)))
         = Ok t ∧ filled (1 + n) 1 t).
  { intros Hcut. destruct (Hcut _ eq_refl) as (t & Ht & Hfl).
    exists t. split; [done|]. by replace (nx + 1) with (1 + (nx + 1 - 1)) by lia. }
  intros n ->.
  apply (for_each_seqZ_inv (λ i t, filled i 1 t)); [lia|apply filled_initial|].
  intros i t Hi Hfl.
  cut (∀ m, m = ny + 1 - 1 → ∃ t',
         for_each (seqZ 1 m) (λ j table,
             xi ← getitem x (i - 1);
             yj ← getitem y (j - 1);
             let d := distance xi yj in
             a ← getitem2 table (i - 1) j;
             b ← getitem2 table i (j - 1);
             c ← getitem2 table (i - 1) (j - 1);
             setitem2 table i j (cadd (Fin d) (min3 a b c))) t
         = Ok t' ∧ filled i (1 + m) t').
  { intros Hcut. destruct (Hcut _ eq_refl) as (t' & Ht' & Hfl').
    exists t'. split; [done|]. apply filled_next_row.
    by replace (ny + 1) with (1 + (ny + 1 - 1)) by lia. }
  intros m ->.
  apply (for_each_seqZ_inv (λ j t, filled i j t)); [lia|done|].
  intros j s Hj Hs. apply filled_step; [lia|lia|done].
Qed.
End TableSpec.

(** ** One iteration of the backtracking loop *)

Section Choice.
Context {R : Type} `{Num R}.
Implicit Types (a b c : cost R) (t : table R).

Lemma min3_is_fin a b c :
  is_fin a ∨ is_fin b ∨ is_fin c → is_fin (min3 a b c).
Proof.
  unfold min3, is_fin.
  destruct a as [ra|], b as [rb|], c as [rc|]; simpl;
    intros [[r Hr]|[[r Hr]|[r Hr]]]; try discriminate Hr;
    repeat match goal with |- context [if ?g then _ else _] => destruct g end;
    eauto.
Qed.

(** ... and infinite only when all three are. *)
Lemma min3_Inf a b c : min3 a b c = Inf → a = Inf ∧ b = Inf ∧ c = Inf.
Proof.
  unfold min3. destruct a as [ra|], b as [rb|], c as [rc|]; simpl;
    repeat match goal with |- context [if ?g then _ else _] => destruct g end;
    done.
Qed.

(** The value of [step] after the three [if]s, from the three cells read. *)
Lemma dtw_body_reads t (i j : Z) a b c :
  getitem2 t (i - 1) j = Ok a →
  getitem2 t i (j - 1) = Ok b →
  getitem2 t (i - 1) (j - 1) = Ok c →
  (a = Inf ∧ b = Inf ∧ c = Inf ∧ ∀ step, dtw_body t i j step = Ok step) ∨
  (∃ s v, (∀ step, dtw_body t i j step = Ok (Some s)) ∧ min3 a b c = Fin v ∧
     (s = (i - 1, j) ∧ a = Fin v ∨
      s = (i, j - 1) ∧ b = Fin v ∨
      s = (i - 1, j - 1) ∧ c = Fin v)).
Proof.
  intros Ha Hb Hc. unfold dtw_body, min3. rewrite Ha, Hb, Hc.
  destruct a as [ra|], b as [rb|], c as [rc|]; simpl;
    repeat match goal with |- context [if ?g then _ else _] => destruct g end;
    simpl; eauto 10.
Qed.

Context `{!NumLaws R}.

Lemma clt_irrefl a : clt a a = false.
Proof. destruct a; simpl; [apply ltb_irrefl|done]. Qed.

Lemma clt_trans a b c : clt a b = true → clt b c = true → clt a c = true.
Proof. destruct a, b, c; simpl; try done. apply ltb_trans. Qed.

Lemma clt_total a b : clt a b = false → clt b a = false → a = b.
Proof.
  destruct a, b; simpl; try done. intros ? ?. f_equal. by apply ltb_total.
Qed.

Lemma clt_asym a b : clt a b = true → clt b a = false.
Proof.
  intros Hab. destruct (clt b a) eqn:Hba; [|done].
  pose proof (clt_trans _ _ _ Hab Hba) as Haa. by rewrite clt_irrefl in Haa.
Qed.

Lemma clt_ne a b : clt a b = true → a ≠ b.
Proof. intros Hab ->. by rewrite clt_irrefl in Hab. Qed.

(** [min] does not depend on the order of its first two arguments. *)
Lemma min3_swap a b c : min3 a b c = min3 b a c.
Proof.
  unfold min3. destruct (clt b a) eqn:Hba, (clt a b) eqn:Hab; try done.
  - by rewrite (clt_asym _ _ Hba) in Hab.
  - by rewrite (clt_total _ _ Hab Hba).
Qed.

(** The candidate kept is the first, in the order up, left, diagonal,
    whose value is the minimum of the three. *)
Lemma dtw_body_first_min t (i j : Z) step a b c :
  getitem2 t (i - 1) j = Ok a →
  getitem2 t i (j - 1) = Ok b →
  getitem2 t (i - 1) (j - 1) = Ok c →
  is_fin (min3 a b c) →
  ∃ s, dtw_body t i j step = Ok (Some s) ∧
    (s = (i - 1, j) ∧ a = min3 a b c ∨
     s = (i, j - 1) ∧ b = min3 a b c ∧ a ≠ min3 a b c ∨
     s = (i - 1, j - 1) ∧ c = min3 a b c ∧ a ≠ min3 a b c ∧ b ≠ min3 a b c).
Proof.
  intros Ha Hb Hc Hfin. unfold dtw_body. rewrite Ha, Hb, Hc. simpl.
  revert Hfin. unfold min3.
  destruct (clt a Inf) eqn:HaI.
  - destruct (clt b a) eqn:Hba.
    + destruct (clt c b) eqn:Hcb; simpl; intros _; eexists; (split; [done|]).
      * right; right. split_and!; [done|done| |by apply not_eq_sym, clt_ne].
        apply not_eq_sym, clt_ne. by apply (clt_trans _ b).
      * right; left. split_and!; [done|done|]. by apply not_eq_sym, clt_ne.
    + destruct (clt c a) eqn:Hca; simpl; intros _; eexists; (split; [done|]).
      * right; right. split_and!; [done|done|by apply not_eq_sym, clt_ne|].
        intros ->. congruence.
      * by left.
  - assert (a = Inf) as -> by (by destruct a).
    destruct (clt b Inf) eqn:HbI.
    + destruct (clt c b) eqn:Hcb; simpl; intros _; eexists; (split; [done|]).
      * right; right. split_and!; [done|done| |by apply not_eq_sym, clt_ne].
        by destruct c.
      * right; left. split_and!; [done|done|]. by destruct b.
    + assert (b = Inf) as -> by (by destruct b).
      destruct (clt c Inf) eqn:HcI; simpl.
      * intros _. eexists. split; [done|]. right; right.
        split_and!; try done; by destruct c.
      * intros [r Hr]. by destruct c.
Qed.
End Choice.

(** ** The backtracking loop on a table of [dtw_table] *)

Section Backtrack.
Context {R : Type} `{Num R}.
Context {obs : Type}.
Variable distance : obs → obs → R.
Variables x y : list obs.
Variable t : table R.
Hypothesis Ht : is_dtw_table distance x y t.

Local Abbreviation nx := (Z.of_nat (length x)).
Local Abbreviation ny := (Z.of_nat (length y)).

(** The cells the recurrence fills. *)
Definition interior (i j : Z) : Prop := 1 ≤ i ≤ nx ∧ 1 ≤ j ≤ ny.

Lemma interior_rec_at (i j : Z) : interior i j → rec_at distance x y t i j.
Proof. intros [Hi Hj]. apply (fl_rec _ _ _ _ _ _ Ht); [done|done|lia]. Qed.

(** An interior state from which the loop can step: one of its three
    candidates is finite. *)
Definition live (i j : Z) : Prop :=
  interior i j ∧
  ∃ a b c,
    getitem2 t (i - 1) j = Ok a ∧ getitem2 t i (j - 1) = Ok b ∧
    getitem2 t (i - 1) (j - 1) = Ok c ∧ is_fin (min3 a b c).

(** A sum is finite only when both its arguments are. *)
Lemma cadd_Fin_inv (a b : cost R) (r : R) :
  cadd a b = Fin r → ∃ ra rb, a = Fin ra ∧ b = Fin rb ∧ add ra rb = Fin r.
Proof. destruct a as [ra|], b as [rb|]; simpl; try done. eauto. Qed.

(** An interior cell that is finite is live. *)
Lemma finite_live (i j : Z) (r : R) :
  interior i j → getitem2 t i j = Ok (Fin r) → live i j.
Proof.
  intros Hij Hr. split; [done|].
  destruct (interior_rec_at i j Hij) as (xi & yj & a & b & c & _ & _ & Ha & Hb & Hc & Hv).
  exists a, b, c. split_and!; try done.
  assert (Hsum : cadd (Fin (distance xi yj)) (min3 a b c) = Fin r) by congruence.
  apply cadd_Fin_inv in Hsum as (_ & m & _ & Hm & _). by exists m.
Qed.

(** The step the loop takes at a live state [(i, j)]: it does not depend
    on the previous value of [step], it goes to a cell with a finite
    value, one row up, one column left or both, which is the origin or
    live again, and the value at [(i, j)] is the distance there plus the
    value at that cell. *)
Definition backstep (i j i' j' : Z) : Prop :=
  (∀ step, dtw_body t i j step = Ok (Some (i', j'))) ∧
  (i' = i - 1 ∨ i' = i) ∧ (j' = j - 1 ∨ j' = j) ∧ (i' < i ∨ j' < j) ∧
  (i' = 0 ∧ j' = 0 ∧ i = 1 ∧ j = 1 ∨ live i' j') ∧
  ∃ xi yj v,
    getitem x (i - 1) = Ok xi ∧ getitem y (j - 1) = Ok yj ∧
    getitem2 t i' j' = Ok (Fin v) ∧
    getitem2 t i j = Ok (add (distance xi yj) v).

Lemma dtw_body_live (i j : Z) : live i j → ∃ i' j', backstep i j i' j'.
Proof.
  intros (Hij & a & b & c & Ha & Hb & Hc & Hfin).
  destruct (interior_rec_at i j Hij)
    as (xi & yj & a' & b' & c' & Hxi & Hyj & Ha' & Hb' & Hc' & Hv).
  assert (a' = a) as -> by congruence. assert (b' = b) as -> by congruence.
  assert (c' = c) as -> by congruence.
  destruct Hij as [Hi Hj].
  pose proof (fl_origin _ _ _ _ _ _ Ht) as Horig.
  pose proof (fl_col0 _ _ _ _ _ _ Ht) as Hcol.
  pose proof (fl_row0 _ _ _ _ _ _ Ht) as Hrow.
  destruct (dtw_body_reads t i j a b c Ha Hb Hc)
    as [(-> & -> & -> & _)|(s & v & Hbody & Hm & Hs)].
  { by destruct Hfin. }
  rewrite Hm in Hv. simpl in Hv.
  destruct Hs as [ [-> ->] | [ [-> ->] | [-> ->] ] ].
  - exists (i - 1), j. unfold backstep. split_and!; try done; try lia.
    + right. destruct (decide (i - 1 = 0)) as [E|].
      * rewrite E, Hrow in Ha by lia. done.
      * apply (finite_live _ _ v); [split; lia|done].
    + eauto 10.
  - exists i, (j - 1). unfold backstep. split_and!; try done; try lia.
    + right. destruct (decide (j - 1 = 0)) as [E|].
      * rewrite E, Hcol in Hb by lia. done.
      * apply (finite_live _ _ v); [split; lia|done].
    + eauto 10.
  - exists (i - 1), (j - 1). unfold backstep.
    split_and!; try done; try lia.
    + destruct (decide (i - 1 = 0)) as [Ei|], (decide (j - 1 = 0)) as [Ej|].
      * left. lia.
      * rewrite Ei, Hrow in Hc by lia. done.
      * rewrite Ej, Hcol in Hc by lia. done.
      * right. apply (finite_live _ _ v); [split; lia|done].
    + eauto 10.
Qed.

(** An induction principle for the runs of the loop: a property [Q] of
    the part of the path built from state [(i, j)] on ([Q i j q], with
    [q] ending in [(i, j)]) that holds of [[(0, 0)]] at the origin and
    is kept by every step holds of the result, and the loop returns
    within [i + j] tests of its condition. *)
Lemma dtw_loop_run (Q : Z → Z → list (Z * Z) → Prop) :
  Q 0 0 [(0, 0)] →
  (∀ i j i' j' q,
     live i j → backstep i j i' j' → Q i' j' q → Q i j (q ++ [(i, j)])) →
  ∀ (fuel : nat) (i j : Z) step rest,
    (i = 0 ∧ j = 0) ∨ live i j →
    (1 ≤ fuel)%nat → i + j ≤ Z.of_nat fuel →
    ∃ q, dtw_loop fuel t i j step ((i, j) :: rest) = Ok (q ++ rest) ∧ Q i j q.
Proof.
  intros Q0 Qstep fuel.
  induction fuel as [|fuel IH]; intros i j step rest Hij Hfuel Hle; [lia|].
  simpl. destruct Hij as [[-> ->]|Hij].
  - simpl. exists [(0, 0)]. done.
  - assert (Hc : (0 <? i) || (0 <? j) = true).
    { destruct Hij as [[? ?] _]. apply orb_true_iff. left. apply Z.ltb_lt. lia. }
    rewrite Hc.
    destruct (dtw_body_live i j Hij) as (i' & j' & Hstep).
    pose proof Hstep as (Hbody & Hi' & Hj' & Hlt & Hin & _).
    rewrite Hbody. simpl.
    destruct (IH i' j' (Some (i', j')) ((i, j) :: rest)) as (q & Hq & HQ).
    + destruct Hin as [(? & ? & _)|?]; [by left|by right].
    + destruct Hij as [[? ?] _]. lia.
    + lia.
    + exists (q ++ [(i, j)]). split; [|by eapply Qstep].
      by rewrite <-app_assoc.
Qed.

(** The state the loop starts from is live when the final cell of the
    table is finite. *)
Lemma final_cell_live (c : R) :
  x ≠ [] → y ≠ [] → getitem2 t nx ny = Ok (Fin c) → live nx ny.
Proof.
  intros Hx Hy Hc.
  assert (length x ≠ 0%nat) as Hnx by (by rewrite length_zero_iff_nil).
  assert (length y ≠ 0%nat) as Hny by (by rewrite length_zero_iff_nil).
  apply (finite_live _ _ c); [split; lia|done].
Qed.
End Backtrack.

(** ** Paths *)

(** Every two consecutive elements are related by [P]. *)
Definition chain (P : Z * Z → Z * Z → Prop) (q : list (Z * Z)) : Prop :=
  ∀ (k : nat) a b, q !! k = Some a → q !! S k = Some b → P a b.

Lemma chain_snoc (P : Z * Z → Z * Z → Prop) (q : list (Z * Z)) (a b : Z * Z) :
  chain P q → last q = Some a → P a b → chain P (q ++ [b]).
Proof.
  intros Hq Hlast Hab k a' b' Ha' Hb'.
  rewrite last_lookup in Hlast.
  apply lookup_lt_Some in Hb' as Hlt. rewrite length_app in Hlt. simpl in Hlt.
  rewrite lookup_app_l in Ha' by lia.
  destruct (decide (S k = length q)) as [E|Hne].
  - rewrite lookup_app_r in Hb' by lia.
    replace (S k - length q)%nat with 0%nat in Hb' by lia.
    simpl in Hb'. injection Hb' as <-.
    replace (pred (length q)) with k in Hlast by lia. congruence.
  - rewrite lookup_app_l in Hb' by lia. by eapply Hq.
Qed.

(** Along a chain both coordinates are non-decreasing. *)
Lemma chain_mono (q : list (Z * Z)) (k d : nat) (a b : Z * Z) :
  chain is_move q → q !! k = Some a → q !! (k + d)%nat = Some b →
  a.1 ≤ b.1 ∧ a.2 ≤ b.2.
Proof.
  intros Hq Ha. revert b. induction d as [|d IH]; intros b Hb.
  - rewrite Nat.add_0_r in Hb. replace b with a by congruence. lia.
  - replace (k + S d)%nat with (S (k + d)) in Hb by lia.
    destruct (lookup_lt_is_Some_2 q (k + d)) as [c Hc].
    { apply lookup_lt_Some in Hb. lia. }
    destruct (IH c Hc) as [? ?].
    destruct (Hq _ _ _ Hc Hb) as [ -> | [ -> | -> ] ]; simpl; lia.
Qed.

(** ** Running the loop longer *)

Section Fuel.
Context {R : Type} `{Num R}.

(** A run that returns within [fuel] tests returns the same with more. *)
Lemma dtw_loop_fuel_mono (t : table R) (fuel k : nat) (i j : Z) step path result :
  dtw_loop fuel t i j step path = Ok result →
  dtw_loop (fuel + k) t i j step path = Ok result.
Proof.
  revert i j step path. induction fuel as [|fuel IH]; intros i j step path; [done|].
  simpl. destruct ((0 <? i) || (0 <? j)); [|done].
  destruct (dtw_body t i j step) as [[[i' j']|]| |]; simpl; try done.
  apply IH.
Qed.

(** The result extends the path the loop started from. *)
Lemma dtw_loop_extends (t : table R) (fuel : nat) (i j : Z) step path result :
  dtw_loop fuel t i j step path = Ok result → ∃ p, result = p ++ path.
Proof.
  revert i j step path. induction fuel as [|fuel IH]; intros i j step path; [done|].
  simpl. destruct ((0 <? i) || (0 <? j)).
  - destruct (dtw_body t i j step) as [[[i' j']|]| |]; simpl; try done.
    intros Hrun. destruct (IH _ _ _ _ Hrun) as [p ->].
    exists (p ++ [(i', j')]). by rewrite <-app_assoc.
  - intros [= <-]. by exists [].
Qed.
End Fuel.

(** ** The shape of the path on a table of [dtw_table] *)

Section RunStructure.
Context {R : Type} `{Num R}.
Context {obs : Type}.
Variable distance : obs → obs → R.
Variables x y : list obs.
Variable t : table R.
Hypothesis Ht : is_dtw_table distance x y t.

(** What holds of the part [q] of the path from the origin to state
    [(i, j)]. *)
Definition well_formed_upto (i j : Z) (q : list (Z * Z)) : Prop :=
  head q = Some (0, 0) ∧ last q = Some (i, j) ∧ chain is_move q ∧
  (∀ (k : nat) a, (1 ≤ k)%nat → q !! k = Some a → interior x y a.1 a.2) ∧
  (interior x y i j → q !! 1%nat = Some (1, 1)) ∧
  Z.max i j + 1 ≤ Z.of_nat (length q) ≤ i + j + 1.

Lemma well_formed_origin : well_formed_upto 0 0 [(0, 0)].
Proof.
  unfold well_formed_upto. split_and!; try done.
  - intros k a Hk Ha. destruct k; [lia|done].
  - intros [? _]. lia.
Qed.

Lemma well_formed_step (i j i' j' : Z) (q : list (Z * Z)) :
  live x y t i j → backstep distance x y t i j i' j' →
  well_formed_upto i' j' q → well_formed_upto i j (q ++ [(i, j)]).
Proof.
  intros [Hij _] (_ & Hi' & Hj' & Hlt & Hin & _) (Hhd & Hlast & Hch & Hint & H11 & Hlen).
  assert (Hpos : (1 ≤ length q)%nat) by (destruct q; [done|simpl; lia]).
  unfold well_formed_upto. split_and!.
  - by destruct q.
  - by rewrite last_snoc.
  - apply (chain_snoc _ _ (i', j')); [done|done|].
    unfold is_move. simpl. destruct Hi' as [->| ->], Hj' as [->| ->].
    + right; right. f_equal; lia.
    + left. f_equal; lia.
    + right; left. f_equal; lia.
    + lia.
  - intros k a Hk Ha.
    destruct (decide (k < length q)%nat) as [Hlt'|Hge].
    + rewrite lookup_app_l in Ha by done. by eapply Hint.
    + rewrite lookup_app_r in Ha by lia.
      destruct (k - length q)%nat; [|done].
      simpl in Ha. by injection Ha as <-.
  - intros _. destruct Hin as [(-> & -> & -> & ->)|Hin].
    + destruct q as [|q0 [|q1 q]]; simpl in *; [done| |lia]. congruence.
    + destruct Hin as [Hin _]. rewrite lookup_app_l; [by apply H11|].
      destruct Hin. lia.
  - rewrite length_app. simpl. destruct Hi', Hj'; lia.
  - rewrite length_app. simpl. lia.
Qed.

(** From a live first state the loop returns, within [len(x) + len(y)]
    tests of its condition, a well-formed path. *)
Lemma dtw_run_well_formed (fuel : nat) :
  live x y t (Z.of_nat (length x)) (Z.of_nat (length y)) →
  (length x + length y ≤ fuel)%nat →
  ∃ path, dtw fuel x y t = Ok path ∧
    well_formed_upto (Z.of_nat (length x)) (Z.of_nat (length y)) path.
Proof.
  intros Hlive Hfuel. unfold dtw.
  pose proof Hlive as [[Hnx Hny] _].
  destruct (dtw_loop_run distance x y t Ht well_formed_upto
              well_formed_origin well_formed_step fuel
              (Z.of_nat (length x)) (Z.of_nat (length y)) None [])
    as (q & Hq & HQ).
  - by right.
  - lia.
  - lia.
  - exists q. by rewrite app_nil_r in Hq.
Qed.
End RunStructure.

(** ** The cost of a path *)

Section PathCost.
Context {R : Type} `{Num R}.
Context {obs : Type}.
Variable distance : obs → obs → R.
Variables x y : list obs.

Lemma path_cost_from_app (p q : list (Z * Z)) (acc : cost R) :
  path_cost_from distance x y (p ++ q) acc =
    s ← path_cost_from distance x y p acc; path_cost_from distance x y q s.
Proof.
  revert acc. induction p as [|[i j] p IH]; intros acc; simpl; [done|].
  destruct ((0 <? i) && (0 <? j)); [|apply IH].
  destruct (getitem x (i - 1)); simpl; try done.
  destruct (getitem y (j - 1)); simpl; try done.
Qed.

Context `{!NumLaws R}.
Variable t : table R.
Hypothesis Ht : is_dtw_table distance x y t.

(** The cost of the path to [(i, j)] is the table entry there, [+inf]
    when the last sum overflows. *)
Definition cost_upto (i j : Z) (q : list (Z * Z)) : Prop :=
  ∃ s, path_cost distance x y q = Ok s ∧ getitem2 t i j = Ok s.

Lemma cost_origin : cost_upto 0 0 [(0, 0)].
Proof. exists (Fin zero). split; [done|]. apply (fl_origin _ _ _ _ _ _ Ht). Qed.

Lemma cost_step (i j i' j' : Z) (q : list (Z * Z)) :
  live x y t i j → backstep distance x y t i j i' j' →
  cost_upto i' j' q → cost_upto i j (q ++ [(i, j)]).
Proof.
  intros [[Hi Hj] _] (_ & _ & _ & _ & _ & xi & yj & v & Hxi & Hyj & Hv & Hij)
    (s & Hs & Hs').
  assert (s = Fin v) as -> by congruence.
  exists (add v (distance xi yj)). split.
  - unfold path_cost in *. rewrite path_cost_from_app, Hs. simpl.
    destruct (Z.ltb_spec 0 i); [|lia]. destruct (Z.ltb_spec 0 j); [|lia].
    simpl. by rewrite Hxi, Hyj.
  - by rewrite add_comm.
Qed.

Lemma dtw_run_cost (fuel : nat) :
  live x y t (Z.of_nat (length x)) (Z.of_nat (length y)) →
  (length x + length y ≤ fuel)%nat →
  ∃ path, dtw fuel x y t = Ok path ∧
    cost_upto (Z.of_nat (length x)) (Z.of_nat (length y)) path.
Proof.
  intros Hlive Hfuel. unfold dtw.
  pose proof Hlive as [[Hnx Hny] _].
  destruct (dtw_loop_run distance x y t Ht cost_upto cost_origin cost_step fuel
              (Z.of_nat (length x)) (Z.of_nat (length y)) None [])
    as (q & Hq & HQ).
  - by right.
  - lia.
  - lia.
  - exists q. by rewrite app_nil_r in Hq.
Qed.
End PathCost.

(** ** Table values along the path *)

Section Monotone.
Context {R : Type} `{NumLaws R}.
Context {obs : Type}.
Variable distance : obs → obs → R.
Hypothesis distance_nonneg : ∀ a b, ltb (distance a b) zero = false.
Variables x y : list obs.
Variable t : table R.
Hypothesis Ht : is_dtw_table distance x y t.

(** The table does not decrease from cell [a] to cell [b]. *)
Definition table_le (a b : Z * Z) : Prop :=
  ∃ va vb, getitem2 t a.1 a.2 = Ok va ∧ getitem2 t b.1 b.2 = Ok vb ∧
    cge vb va = true.

(** The cell [a] of the table is finite. *)
Definition finite_at (a : Z * Z) : Prop := ∃ r, getitem2 t a.1 a.2 = Ok (Fin r).

Definition nondecreasing_upto (i j : Z) (q : list (Z * Z)) : Prop :=
  last q = Some (i, j) ∧ chain table_le q ∧
  ∀ (k : nat) a, q !! k = Some a → (S k < length q)%nat → finite_at a.

Lemma nondecreasing_origin : nondecreasing_upto 0 0 [(0, 0)].
Proof.
  split_and!; [done| |].
  - intros k a b Ha Hb. by destruct k.
  - intros k a Ha Hk. simpl in Hk. lia.
Qed.

Lemma nondecreasing_step (i j i' j' : Z) (q : list (Z * Z)) :
  live x y t i j → backstep distance x y t i j i' j' →
  nondecreasing_upto i' j' q → nondecreasing_upto i j (q ++ [(i, j)]).
Proof.
  intros _ (_ & _ & _ & _ & _ & xi & yj & v & _ & _ & Hv & Hij) (Hlast & Hch & Hfin).
  split_and!; [by rewrite last_snoc| |].
  - apply (chain_snoc _ _ (i', j')); [done|done|].
    exists (Fin v), (add (distance xi yj) v). split_and!; [done|done|].
    unfold cge. by rewrite add_nonneg.
  - intros k a Ha Hk. rewrite length_app in Hk. simpl in Hk.
    rewrite lookup_app_l in Ha by lia.
    destruct (decide (S k < length q)%nat) as [Hlt|Hge]; [by apply (Hfin k)|].
    rewrite last_lookup in Hlast.
    replace (pred (length q)) with k in Hlast by lia.
    assert (a = (i', j')) as -> by congruence. by exists v.
Qed.

Lemma dtw_run_nondecreasing (fuel : nat) (c : R) :
  live x y t (Z.of_nat (length x)) (Z.of_nat (length y)) →
  getitem2 t (Z.of_nat (length x)) (Z.of_nat (length y)) = Ok (Fin c) →
  (length x + length y ≤ fuel)%nat →
  ∃ path, dtw fuel x y t = Ok path ∧ chain table_le path ∧
    ∀ a, a ∈ path → finite_at a.
Proof.
  intros Hlive Hc Hfuel. unfold dtw.
  pose proof Hlive as [[Hnx Hny] _].
  destruct (dtw_loop_run distance x y t Ht nondecreasing_upto
              nondecreasing_origin nondecreasing_step fuel
              (Z.of_nat (length x)) (Z.of_nat (length y)) None [])
    as (q & Hq & Hlast & Hch & Hfin).
  - by right.
  - lia.
  - lia.
  - exists q. rewrite app_nil_r in Hq. split_and!; [done|done|].
    intros a [k Hk]%list_elem_of_lookup.
    destruct (decide (S k < length q)%nat) as [Hlt|Hge]; [by apply (Hfin k)|].
    apply lookup_lt_Some in Hk as Hklt.
    rewrite last_lookup in Hlast.
    replace (pred (length q)) with k in Hlast by lia.
    assert (a = (Z.of_nat (length x), Z.of_nat (length y))) as -> by congruence.
    by exists c.
Qed.

(** An interior cell is at least the minimum of its three predecessors. *)
Lemma interior_ge_min (i j : Z) :
  interior x y i j →
  ∃ v a b c,
    getitem2 t i j = Ok v ∧
    getitem2 t (i - 1) j = Ok a ∧ getitem2 t i (j - 1) = Ok b ∧
    getitem2 t (i - 1) (j - 1) = Ok c ∧
    cge v (min3 a b c) = true.
Proof.
  intros Hij.
  destruct (interior_rec_at distance x y t Ht i j Hij)
    as (xi & yj & a & b & c & _ & _ & Ha & Hb & Hc & Hv).
  eexists _, a, b, c. split_and!; try done.
  unfold cge. destruct (min3 a b c) as [m|]; simpl; [|done].
  by rewrite add_nonneg.
Qed.
End Monotone.

(** ** Empty sequences *)

Section Degenerate.
Context {R : Type} `{Num R}.
Context {obs : Type}.
Variable distance : obs → obs → R.

(** With [x] empty no cell is filled: the table is its first row. *)
Lemma dtw_table_nil_l (y : list obs) :
  dtw_table distance [] y = Ok [Fin zero :: replicate (length y) Inf].
Proof.
  unfold dtw_table. rewrite initial_table. unfold range. simpl.
  by rewrite ?seqZ_nil by lia.
Qed.

(** With [y] empty no cell is filled: the table is its first column. *)
Lemma dtw_table_nil_r (x : list obs) :
  dtw_table distance x [] = Ok ([Fin zero] :: replicate (length x) [Inf]).
Proof.
  unfold dtw_table. rewrite initial_table. unfold range. simpl.
  by apply for_each_skip.
Qed.

(** A table with a single row: row [-1] is row [0]. *)
Lemma getitem2_single_row (row : list (cost R)) (j : Z) :
  getitem2 [row] 0 j = getitem row j ∧ getitem2 [row] (-1) j = getitem row j.
Proof. done. Qed.

(** When the three cells read at the first iteration are all
    infinite, [step] is read before it was ever assigned. *)
Lemma dtw_first_iteration_unbound (x y : list obs) (t : table R) (fuel : nat) :
  x ≠ [] ∨ y ≠ [] →
  getitem2 t (Z.of_nat (length x) - 1) (Z.of_nat (length y)) = Ok Inf →
  getitem2 t (Z.of_nat (length x)) (Z.of_nat (length y) - 1) = Ok Inf →
  getitem2 t (Z.of_nat (length x) - 1) (Z.of_nat (length y) - 1) = Ok Inf →
  dtw (S fuel) x y t = Raise UnboundLocalError.
Proof.
  intros Hne Ha Hb Hc. unfold dtw. simpl.
  assert (Hcond : (0 <? Z.of_nat (length x)) || (0 <? Z.of_nat (length y)) = true).
  { apply orb_true_iff.
    destruct Hne as [Hx|Hy]; [left|right]; apply Z.ltb_lt;
      destruct x, y; simpl; try done; lia. }
  rewrite Hcond. unfold dtw_body. by rewrite Ha, Hb, Hc.
Qed.

Lemma replicate_Inf_getitem (n : nat) (k : Z) (v : cost R) :
  1 ≤ k ≤ Z.of_nat n → getitem (v :: replicate n Inf) k = Ok Inf.
Proof.
  intros Hk. apply getitem_Ok_lookup; [lia|].
  destruct (Z.to_nat k) as [|p] eqn:E; [lia|]. simpl.
  apply lookup_replicate_2. lia.
Qed.

Lemma dtw_nil_l_raises (y : list obs) (fuel : nat) :
  (2 ≤ length y)%nat →
  dtw (S fuel) [] y [Fin zero :: replicate (length y) Inf] = Raise UnboundLocalError.
Proof.
  intros Hy. apply dtw_first_iteration_unbound.
  - right. intros ->. simpl in Hy. lia.
  - simpl. change (0 - 1) with (-1).
    rewrite (proj2 (getitem2_single_row _ _)). apply replicate_Inf_getitem. lia.
  - simpl. rewrite (proj1 (getitem2_single_row _ _)).
    apply replicate_Inf_getitem. lia.
  - simpl. change (0 - 1) with (-1).
    rewrite (proj2 (getitem2_single_row _ _)). apply replicate_Inf_getitem. lia.
Qed.

Lemma first_column_getitem2 (n : nat) (i j : Z) :
  1 ≤ i ≤ Z.of_nat n → j = 0 ∨ j = -1 →
  getitem2 ([Fin zero] :: replicate n [Inf]) i j = Ok Inf.
Proof.
  intros Hi Hj. unfold getitem2.
  assert (getitem ([Fin zero] :: replicate n [Inf]) i = Ok [Inf]) as ->.
  { apply getitem_Ok_lookup; [lia|].
    destruct (Z.to_nat i) as [|p] eqn:E; [lia|]. simpl.
    apply lookup_replicate_2. lia. }
  simpl. by destruct Hj as [-> | ->].
Qed.

Lemma dtw_nil_r_raises (x : list obs) (fuel : nat) :
  (2 ≤ length x)%nat →
  dtw (S fuel) x [] ([Fin zero] :: replicate (length x) [Inf]) = Raise UnboundLocalError.
Proof.
  intros Hx. apply dtw_first_iteration_unbound.
  - left. intros ->. simpl in Hx. lia.
  - apply first_column_getitem2; [lia|by left].
  - apply first_column_getitem2; [lia|by right].
  - apply first_column_getitem2; [lia|by right].
Qed.

(** With one sequence empty, only the origin of the table is finite. *)
Lemma only_origin_finite (x y : list obs) (t : table R) (i j : Z) (v : cost R) :
  x = [] ∨ y = [] →
  is_dtw_table distance x y t →
  0 ≤ i ≤ Z.of_nat (length x) → 0 ≤ j ≤ Z.of_nat (length y) →
  getitem2 t i j = Ok v → is_fin v → i = 0 ∧ j = 0.
Proof.
  intros Hxy [_ _ Hcol Hrow _] Hi Hj Hv [r ->].
  destruct (decide (i = 0)) as [->|Hi0], (decide (j = 0)) as [->|Hj0]; [done| | |].
  - rewrite Hrow in Hv by lia. done.
  - rewrite Hcol in Hv by lia. done.
  - destruct Hxy as [-> | ->]; simpl in *; lia.
Qed.
End Degenerate.

(** ** Swapping the two sequences *)

Lemma norm_index_Raise (n : nat) (k : Z) (e : exn) :
  norm_index n k = Raise e → e = IndexError.
Proof.
  unfold norm_index.
  destruct ((0 <=? k) && (k <? Z.of_nat n)); [done|].
  destruct ((- Z.of_nat n <=? k) && (k <? 0)); [done|]. by intros [= <-].
Qed.

Lemma norm_index_not_Timeout (n : nat) (k : Z) : norm_index n k ≠ Timeout.
Proof.
  unfold norm_index.
  destruct ((0 <=? k) && (k <? Z.of_nat n)); [done|].
  by destruct ((- Z.of_nat n <=? k) && (k <? 0)).
Qed.

Section Transpose.
Context {R : Type} `{Num R}.
Implicit Types (t : table R).

(** Reading a cell of a table of known shape: both indices are
    normalised, the row index first. *)
Lemma getitem2_norm n m t (i j : Z) :
  shape n m t →
  getitem2 t i j =
    p ← norm_index n i; q ← norm_index m j;
    match lookup2 t p q with Some v => Ok v | None => Raise IndexError end.
Proof.
  intros [Hn Hm]. unfold getitem2, getitem, lookup2. rewrite Hn.
  destruct (norm_index n i) as [p| |] eqn:Hp; simpl; try done.
  apply norm_index_Ok in Hp.
  destruct (lookup_lt_is_Some_2 t p) as [row Hrow]; [lia|].
  rewrite Hrow. simpl. by rewrite (Forall_lookup_1 _ _ _ _ Hm Hrow).
Qed.

(** Two tables that are transposes of each other on their cells read
    the same at all indices, negative and out of range included. *)
Lemma getitem2_transpose n m t t' :
  shape n m t → shape m n t' →
  (∀ p q : nat, (p < n)%nat → (q < m)%nat → lookup2 t' q p = lookup2 t p q) →
  ∀ i j : Z, getitem2 t' j i = getitem2 t i j.
Proof.
  intros Hsh Hsh' Hcells i j.
  rewrite (getitem2_norm n m t) by done. rewrite (getitem2_norm m n t') by done.
  destruct (norm_index n i) as [p|e|] eqn:Hp, (norm_index m j) as [q|e'|] eqn:Hq;
    simpl; try done;
    try (by apply norm_index_not_Timeout in Hp);
    try (by apply norm_index_not_Timeout in Hq).
  - apply norm_index_Ok in Hp, Hq. by rewrite Hcells.
  - apply norm_index_Raise in Hp, Hq. by subst.
Qed.
End Transpose.

Section Swap.
Context {R : Type} `{NumLaws R}.
Context {obs : Type}.
Variable distance : obs → obs → R.
Variables x y : list obs.
Variables t t' : table R.
Hypothesis Ht : is_dtw_table distance x y t.
Hypothesis Ht' : is_dtw_table (flip distance) y x t'.

(** The table of the swapped sequences is the transpose, cell by cell. *)
Lemma dtw_table_swap_cells (i j : Z) :
  0 ≤ i ≤ Z.of_nat (length x) → 0 ≤ j ≤ Z.of_nat (length y) →
  getitem2 t' j i = getitem2 t i j.
Proof.
  cut (∀ n : nat, ∀ i j, 0 ≤ i ≤ Z.of_nat (length x) → 0 ≤ j ≤ Z.of_nat (length y) →
         i + j ≤ Z.of_nat n → getitem2 t' j i = getitem2 t i j).
  { intros Hcut Hi Hj. apply (Hcut (Z.to_nat (i + j))); [done|done|lia]. }
  clear i j. intros n. induction n as [|n IH]; intros i j Hi Hj Hle.
  { assert (i = 0) as -> by lia. assert (j = 0) as -> by lia.
    by rewrite (fl_origin _ _ _ _ _ _ Ht), (fl_origin _ _ _ _ _ _ Ht'). }
  destruct (decide (i = 0)) as [->|Hi0].
  { destruct (decide (j = 0)) as [->|Hj0].
    - by rewrite (fl_origin _ _ _ _ _ _ Ht), (fl_origin _ _ _ _ _ _ Ht').
    - rewrite (fl_row0 _ _ _ _ _ _ Ht) by lia.
      by rewrite (fl_col0 _ _ _ _ _ _ Ht') by lia. }
  destruct (decide (j = 0)) as [->|Hj0].
  { rewrite (fl_col0 _ _ _ _ _ _ Ht) by lia.
    by rewrite (fl_row0 _ _ _ _ _ _ Ht') by lia. }
  destruct (fl_rec _ _ _ _ _ _ Ht i j)
    as (xi & yj & a & b & c & Hxi & Hyj & Ha & Hb & Hc & Hv); [lia|lia|lia|].
  destruct (fl_rec _ _ _ _ _ _ Ht' j i)
    as (yj' & xi' & a' & b' & c' & Hyj' & Hxi' & Ha' & Hb' & Hc' & Hv'); [lia|lia|lia|].
  rewrite IH in Ha', Hb', Hc' by lia.
  rewrite Hv, Hv'. unfold flip.
  assert (xi' = xi) as -> by congruence. assert (yj' = yj) as -> by congruence.
  assert (a' = b) as -> by congruence. assert (b' = a) as -> by congruence.
  assert (c' = c) as -> by congruence.
  by rewrite min3_swap.
Qed.

Lemma dtw_table_swap (i j : Z) : getitem2 t' j i = getitem2 t i j.
Proof.
  apply (getitem2_transpose (S (length x)) (S (length y))).
  - apply (fl_shape _ _ _ _ _ _ Ht).
  - apply (fl_shape _ _ _ _ _ _ Ht').
  - intros p q Hp Hq.
    pose proof (dtw_table_swap_cells (Z.of_nat p) (Z.of_nat q)) as Hpq.
    rewrite !getitem2_nonneg in Hpq by lia. rewrite !Nat2Z.id in Hpq.
    destruct (lookup2 t' q p), (lookup2 t p q); try (specialize (Hpq ltac:(lia) ltac:(lia))); congruence.
Qed.
End Swap.

Section SwapPath.
Context {R : Type} `{NumLaws R}.
Implicit Types (t : table R) (a b c : cost R).

Variables t t' : table R.
Hypothesis Hswap : ∀ i j : Z, getitem2 t' j i = getitem2 t i j.

Lemma dtw_body_swap (i j : Z) step r :
  tie_at t (i, j) = false →
  (0 <? i) || (0 <? j) = true →
  dtw_body t i j step = Ok r →
  dtw_body t' j i (prod_swap <$> step) = Ok (prod_swap <$> r).
Proof.
  unfold tie_at, dtw_body. simpl. intros Htie Hcond. rewrite Hcond in Htie.
  rewrite !Hswap.
  destruct (getitem2 t (i - 1) j) as [a| |],
           (getitem2 t i (j - 1)) as [b| |],
           (getitem2 t (i - 1) (j - 1)) as [c| |]; simpl;
    try (repeat match goal with
                | |- context [if ?g then _ else _] => destruct g
                end; done).
  simpl in Htie. unfold tied in Htie.
  destruct a as [ra|], b as [rb|]; simpl in *.
  - destruct (ltb rb ra) eqn:Hba, (ltb ra rb) eqn:Hab; simpl in *.
    + pose proof (ltb_trans _ _ _ Hab Hba) as Haa. by rewrite ltb_irrefl in Haa.
    + destruct (clt c (Fin rb)); simpl; by intros [= <-].
    + destruct (clt c (Fin ra)); simpl; by intros [= <-].
    + assert (ra = rb) as -> by (by apply ltb_total).
      destruct (clt c (Fin rb)); simpl in *; [by intros [= <-]|done].
  - destruct (clt c (Fin ra)); simpl; by intros [= <-].
  - destruct (clt c (Fin rb)); simpl; by intros [= <-].
  - destruct (clt c Inf); simpl; by intros [= <-].
Qed.

Lemma tie_free_In (path : list (Z * Z)) (s : Z * Z) :
  tie_free t path = true → In s path → tie_at t s = false.
Proof.
  unfold tie_free. rewrite forallb_forall. intros Hall Hs.
  apply Hall in Hs. by destruct (tie_at t s).
Qed.

(** A run on [t] that meets no tie is mirrored by the run on [t']. *)
Lemma dtw_loop_swap (fuel : nat) (i j : Z) step path result :
  dtw_loop fuel t i j step path = Ok result →
  tie_free t result = true →
  In (i, j) path →
  dtw_loop fuel t' j i (prod_swap <$> step) (prod_swap <$> path) =
    Ok (prod_swap <$> result).
Proof.
  revert i j step path.
  induction fuel as [|fuel IH]; intros i j step path Hrun Hfree Hin; [done|].
  simpl in *. rewrite (orb_comm (0 <? j)).
  destruct ((0 <? i) || (0 <? j)) eqn:Hcond.
  - destruct (dtw_body t i j step) as [r| |] eqn:Hbody; simpl in Hrun; try done.
    assert (Htie : tie_at t (i, j) = false).
    { destruct r as [[i' j']|]; [|done].
      apply dtw_loop_extends in Hrun as [p ->].
      apply (tie_free_In _ _ Hfree). apply in_or_app. right. by right. }
    rewrite (dtw_body_swap i j step r Htie Hcond Hbody). simpl.
    destruct r as [[i' j']|]; [|done]. simpl.
    apply (IH i' j' (Some (i', j')) ((i', j') :: path)); [done|done|by left].
  - by injection Hrun as <-.
Qed.
End SwapPath.

(** * The properties of the specification *)

(** ** The table *)

(** C1: for all sequences [x] and [y] and every distance, [dtw_table]
    returns a table of [len(x) + 1] rows of [len(y) + 1] entries, with
    [0] at [(0, 0)], [+inf] in the rest of column 0 and of row 0, and at
    every other cell [(i, j)] the value
    [distance(x[i-1], y[j-1]) + min(t[i-1, j], t[i, j-1], t[i-1, j-1])]. *)
Theorem dtw_table_boundary_and_recurrence
    {R : Type} `{Num R} {obs : Type} (distance : obs → obs → R) (x y : list obs) :
  ∃ t, dtw_table distance x y = Ok t ∧
    length t = S (length x) ∧
    Forall (λ row, length row = S (length y)) t ∧
    getitem2 t 0 0 = Ok (Fin zero) ∧
    (∀ i, 1 ≤ i ≤ Z.of_nat (length x) → getitem2 t i 0 = Ok Inf) ∧
    (∀ j, 1 ≤ j ≤ Z.of_nat (length y) → getitem2 t 0 j = Ok Inf) ∧
    (∀ i j, 1 ≤ i ≤ Z.of_nat (length x) → 1 ≤ j ≤ Z.of_nat (length y) →
       ∃ xi yj a b c,
         getitem x (i - 1) = Ok xi ∧ getitem y (j - 1) = Ok yj ∧
         getitem2 t (i - 1) j = Ok a ∧ getitem2 t i (j - 1) = Ok b ∧
         getitem2 t (i - 1) (j - 1) = Ok c ∧
         getitem2 t i j = Ok (cadd (Fin (distance xi yj)) (min3 a b c))).
Proof.
  destruct (dtw_table_spec distance x y) as (t & Ht & [[Hn Hm] H0 Hc Hr Hrec]).
  exists t. split_and!; try done.
  intros i j Hi Hj. apply Hrec; [done|done|lia].
Qed.

(** C2: on the example of the notebook, [x = [0,4,4,0,-4,-4,0]] and
    [y = [1,3,4,3,1,-1,-2,-1,0]] with the Euclidean distance of scalars,
    the table has [10] at [(7, 9)] and the path is the one the notebook
    prints; twelve tests of the loop condition are enough. *)
Theorem example_cost_and_path :
  dtw_table Example.euclidean Example.x Example.y = Ok Example.cost_table ∧
  getitem2 Example.cost_table 7 9 = Ok (Fin 10) ∧
  ∀ k : nat, dtw (12 + k) Example.x Example.y Example.cost_table = Ok Example.path.
Proof.
  split; [vm_compute; reflexivity|]. split; [vm_compute; reflexivity|].
  intros k. unfold dtw. apply dtw_loop_fuel_mono. vm_compute. reflexivity.
Qed.

(** ** The choice of a predecessor *)

(** C5: in one iteration at state [(i, j)] the three candidates are
    compared in the order [(i-1, j)], [(i, j-1)], [(i-1, j-1)], each
    against the best so far with a strict [<].  So, when one of them is
    finite, the loop steps to the first candidate in that order whose
    value is the minimum of the three: up unless left or diagonal is
    strictly smaller, left unless up is no larger or the diagonal is
    strictly smaller. *)
Theorem dtw_step_prefers_up_then_left_then_diagonal
    {R : Type} `{NumLaws R} (t : table R) (i j : Z) (step : option (Z * Z))
    (a b c : cost R) :
  getitem2 t (i - 1) j = Ok a →
  getitem2 t i (j - 1) = Ok b →
  getitem2 t (i - 1) (j - 1) = Ok c →
  is_fin (min3 a b c) →
  ∃ s, dtw_body t i j step = Ok (Some s) ∧
    (s = (i - 1, j) ∧ a = min3 a b c ∨
     s = (i, j - 1) ∧ b = min3 a b c ∧ a ≠ min3 a b c ∨
     s = (i - 1, j - 1) ∧ c = min3 a b c ∧ a ≠ min3 a b c ∧ b ≠ min3 a b c).
Proof. apply dtw_body_first_min. Qed.

(** A state where the three candidates tie: [(2, 2)] in the table of
    [x = y = [0, 0]]. *)
Lemma dtw_step_prefers_up_witness :
  ∃ s, dtw_body Tie.cost_table 2 2 None = Ok (Some s) ∧
    (s = (2 - 1, 2) ∧ Fin 0 = min3 (Fin 0) (Fin 0) (Fin 0) ∨
     s = (2, 2 - 1) ∧ Fin 0 = min3 (Fin 0) (Fin 0) (Fin 0) ∧
       Fin 0 ≠ min3 (Fin 0) (Fin 0) (Fin 0) ∨
     s = (2 - 1, 2 - 1) ∧ Fin 0 = min3 (Fin 0) (Fin 0) (Fin 0) ∧
       Fin 0 ≠ min3 (Fin 0) (Fin 0) (Fin 0) ∧ Fin 0 ≠ min3 (Fin 0) (Fin 0) (Fin 0)).
Proof.
  apply (dtw_step_prefers_up_then_left_then_diagonal
           Tie.cost_table 2 2 None (Fin 0) (Fin 0) (Fin 0)).
  - reflexivity.
  - reflexivity.
  - reflexivity.
  - exists 0. reflexivity.
Defined.

(** ** Overflow *)

(** On three samples of [2.0**1023] against one sample [0.0], in
    binary64, the cumulative sum overflows at cell [(2, 1)]: the cells
    [(2, 1)] and [(3, 1)] are [+inf], the three candidates of the first
    state [(3, 1)] are all infinite, and the backtracker raises. *)
Lemma binary64_overflow_table :
  dtw_table Binary64.euclidean Binary64.x Binary64.y = Ok Binary64.cost_table.
Proof. vm_compute. reflexivity. Qed.

Lemma binary64_overflow_raises (fuel : nat) :
  dtw (S fuel) Binary64.x Binary64.y Binary64.cost_table = Raise UnboundLocalError.
Proof. by apply dtw_first_iteration_unbound; [left|..]. Qed.

Lemma binary64_overflow_no_path (fuel : nat) (path : list (Z * Z)) :
  dtw fuel Binary64.x Binary64.y Binary64.cost_table ≠ Ok path.
Proof.
  destruct fuel as [|fuel]; [done|]. by rewrite binary64_overflow_raises.
Qed.

(** ** The path *)

(** C4 fails as stated: on the binary64 input above both sequences are
    non-empty and no path is returned, whatever the bound on the loop. *)
Lemma overflow_returns_no_valid_path :
  Binary64.x ≠ [] ∧ Binary64.y ≠ [] ∧
  dtw_table Binary64.euclidean Binary64.x Binary64.y = Ok Binary64.cost_table ∧
  ∀ fuel : nat,
    ¬ ∃ path, dtw fuel Binary64.x Binary64.y Binary64.cost_table = Ok path ∧
        head path = Some (0, 0) ∧ last path = Some (3, 1).
Proof.
  split_and!; [done|done|apply binary64_overflow_table|].
  intros fuel (path & Hrun & _). by apply binary64_overflow_no_path in Hrun.
Qed.

(** C4, amended: for non-empty [x] and [y] whose final cost
    [table[len(x)][len(y)]] is finite, the path starts at [(0, 0)], ends
    at [(len(x), len(y))], every two consecutive elements differ by
    [(+1, 0)], [(0, +1)] or [(+1, +1)], and so both coordinates are
    non-decreasing along it. *)
Theorem dtw_path_valid
    {R : Type} `{Num R} {obs : Type} (distance : obs → obs → R)
    (x y : list obs) (t : table R) (c : R) (fuel : nat) :
  x ≠ [] → y ≠ [] →
  dtw_table distance x y = Ok t →
  getitem2 t (Z.of_nat (length x)) (Z.of_nat (length y)) = Ok (Fin c) →
  (length x + length y ≤ fuel)%nat →
  ∃ path, dtw fuel x y t = Ok path ∧
    head path = Some (0, 0) ∧
    last path = Some (Z.of_nat (length x), Z.of_nat (length y)) ∧
    (∀ (k : nat) a b, path !! k = Some a → path !! S k = Some b → is_move a b) ∧
    (∀ (k l : nat) a b, (k ≤ l)%nat → path !! k = Some a → path !! l = Some b →
       a.1 ≤ b.1 ∧ a.2 ≤ b.2).
Proof.
  intros Hx Hy Htab Hc Hfuel.
  destruct (dtw_table_spec distance x y) as (t' & Ht' & Hspec).
  assert (t' = t) as -> by congruence.
  pose proof (final_cell_live distance x y t Hspec c Hx Hy Hc) as Hlive.
  destruct (dtw_run_well_formed distance x y t Hspec fuel Hlive Hfuel)
    as (path & Hrun & Hhd & Hlast & Hch & _).
  exists path. split_and!; try done.
  intros k l a b Hkl Ha Hb. apply (chain_mono path k (l - k) a b); [done|done|].
  by replace (k + (l - k))%nat with l by lia.
Qed.

Lemma dtw_path_valid_witness :
  ∃ path, dtw 16 Example.x Example.y Example.cost_table = Ok path ∧
    head path = Some (0, 0) ∧
    last path = Some (7, 9) ∧
    (∀ (k : nat) a b, path !! k = Some a → path !! S k = Some b → is_move a b) ∧
    (∀ (k l : nat) a b, (k ≤ l)%nat → path !! k = Some a → path !! l = Some b →
       a.1 ≤ b.1 ∧ a.2 ≤ b.2).
Proof.
  refine (dtw_path_valid Example.euclidean Example.x Example.y Example.cost_table
            10 16 _ _ _ _ _).
  - discriminate.
  - discriminate.
  - vm_compute. reflexivity.
  - reflexivity.
  - simpl. lia.
Defined.

(** C9 fails as stated: on the binary64 input above both sequences are
    non-empty, and the loop ends in its first iteration with
    [UnboundLocalError]: no path is returned to which the bounds could
    apply. *)
Lemma overflow_ends_without_path :
  Binary64.x ≠ [] ∧ Binary64.y ≠ [] ∧
  dtw_table Binary64.euclidean Binary64.x Binary64.y = Ok Binary64.cost_table ∧
  ∀ fuel : nat,
    dtw (S fuel) Binary64.x Binary64.y Binary64.cost_table = Raise UnboundLocalError.
Proof.
  split_and!; [done|done|apply binary64_overflow_table|apply binary64_overflow_raises].
Qed.

(** C9, amended: for non-empty [x] and [y] whose final cost is finite
    the loop terminates: [len(x) + len(y)] tests of its condition are
    enough, every iteration lowers [i + j] by 1 or by 2, and the path has
    at least [max(len(x), len(y)) + 1] and at most [len(x) + len(y) + 1]
    elements. *)
Theorem dtw_terminates_with_bounded_path
    {R : Type} `{Num R} {obs : Type} (distance : obs → obs → R)
    (x y : list obs) (t : table R) (c : R) (fuel : nat) :
  x ≠ [] → y ≠ [] →
  dtw_table distance x y = Ok t →
  getitem2 t (Z.of_nat (length x)) (Z.of_nat (length y)) = Ok (Fin c) →
  (length x + length y ≤ fuel)%nat →
  ∃ path, dtw fuel x y t = Ok path ∧
    (∀ (k : nat) a b, path !! k = Some a → path !! S k = Some b →
       b.1 + b.2 - (a.1 + a.2) = 1 ∨ b.1 + b.2 - (a.1 + a.2) = 2) ∧
    Z.max (Z.of_nat (length x)) (Z.of_nat (length y)) + 1 ≤ Z.of_nat (length path) ∧
    Z.of_nat (length path) ≤ Z.of_nat (length x) + Z.of_nat (length y) + 1.
Proof.
  intros Hx Hy Htab Hc Hfuel.
  destruct (dtw_table_spec distance x y) as (t' & Ht' & Hspec).
  assert (t' = t) as -> by congruence.
  pose proof (final_cell_live distance x y t Hspec c Hx Hy Hc) as Hlive.
  destruct (dtw_run_well_formed distance x y t Hspec fuel Hlive Hfuel)
    as (path & Hrun & _ & _ & Hch & _ & _ & Hlen).
  exists path. split_and!; try done; try lia.
  intros k a b Ha Hb. destruct (Hch _ _ _ Ha Hb) as [ -> | [ -> | -> ] ]; simpl; lia.
Qed.

Lemma dtw_terminates_witness :
  ∃ path, dtw 16 Example.x Example.y Example.cost_table = Ok path ∧
    (∀ (k : nat) a b, path !! k = Some a → path !! S k = Some b →
       b.1 + b.2 - (a.1 + a.2) = 1 ∨ b.1 + b.2 - (a.1 + a.2) = 2) ∧
    Z.max 7 9 + 1 ≤ Z.of_nat (length path) ∧
    Z.of_nat (length path) ≤ 7 + 9 + 1.
Proof.
  refine (dtw_terminates_with_bounded_path
            Example.euclidean Example.x Example.y Example.cost_table 10 16 _ _ _ _ _).
  - discriminate.
  - discriminate.
  - vm_compute. reflexivity.
  - reflexivity.
  - simpl. lia.
Defined.

(** C10 fails as stated: on the binary64 input above both sequences are
    non-empty and there is no path, so none with [(1, 1)] as its second
    element. *)
Lemma overflow_has_no_second_element :
  Binary64.x ≠ [] ∧ Binary64.y ≠ [] ∧
  dtw_table Binary64.euclidean Binary64.x Binary64.y = Ok Binary64.cost_table ∧
  ∀ fuel : nat,
    ¬ ∃ path, dtw fuel Binary64.x Binary64.y Binary64.cost_table = Ok path ∧
        path !! 1%nat = Some (1, 1).
Proof.
  split_and!; [done|done|apply binary64_overflow_table|].
  intros fuel (path & Hrun & _). by apply binary64_overflow_no_path in Hrun.
Qed.

(** C10, amended: for non-empty [x] and [y] whose final cost is finite
    the path meets the boundary of the table at [(0, 0)] only: its first
    element is [(0, 0)], its second is [(1, 1)], and every element after
    the first is an interior cell. *)
Theorem dtw_path_avoids_boundary
    {R : Type} `{Num R} {obs : Type} (distance : obs → obs → R)
    (x y : list obs) (t : table R) (c : R) (fuel : nat) :
  x ≠ [] → y ≠ [] →
  dtw_table distance x y = Ok t →
  getitem2 t (Z.of_nat (length x)) (Z.of_nat (length y)) = Ok (Fin c) →
  (length x + length y ≤ fuel)%nat →
  ∃ path, dtw fuel x y t = Ok path ∧
    path !! 0%nat = Some (0, 0) ∧
    path !! 1%nat = Some (1, 1) ∧
    (∀ (k : nat) a, (1 ≤ k)%nat → path !! k = Some a →
       1 ≤ a.1 ≤ Z.of_nat (length x) ∧ 1 ≤ a.2 ≤ Z.of_nat (length y)).
Proof.
  intros Hx Hy Htab Hc Hfuel.
  destruct (dtw_table_spec distance x y) as (t' & Ht' & Hspec).
  assert (t' = t) as -> by congruence.
  pose proof (final_cell_live distance x y t Hspec c Hx Hy Hc) as Hlive.
  destruct (dtw_run_well_formed distance x y t Hspec fuel Hlive Hfuel)
    as (path & Hrun & Hhd & _ & _ & Hint & H11 & _).
  exists path. split_and!; try done.
  - by destruct path.
  - apply H11. by destruct Hlive.
Qed.

Lemma dtw_path_avoids_boundary_witness :
  ∃ path, dtw 16 Example.x Example.y Example.cost_table = Ok path ∧
    path !! 0%nat = Some (0, 0) ∧
    path !! 1%nat = Some (1, 1) ∧
    (∀ (k : nat) a, (1 ≤ k)%nat → path !! k = Some a →
       1 ≤ a.1 ≤ 7 ∧ 1 ≤ a.2 ≤ 9).
Proof.
  refine (dtw_path_avoids_boundary
            Example.euclidean Example.x Example.y Example.cost_table 10 16 _ _ _ _ _).
  - discriminate.
  - discriminate.
  - vm_compute. reflexivity.
  - reflexivity.
  - simpl. lia.
Defined.

(** C3 fails as stated: on the binary64 input above both sequences are
    non-empty, the final cell is [+inf] and no path is returned whose
    distances could be summed. *)
Lemma overflow_has_no_path_cost :
  Binary64.x ≠ [] ∧ Binary64.y ≠ [] ∧
  dtw_table Binary64.euclidean Binary64.x Binary64.y = Ok Binary64.cost_table ∧
  getitem2 Binary64.cost_table 3 1 = Ok Inf ∧
  ∀ fuel : nat,
    ¬ ∃ path s, dtw fuel Binary64.x Binary64.y Binary64.cost_table = Ok path ∧
        path_cost Binary64.euclidean Binary64.x Binary64.y path = Ok s ∧
        getitem2 Binary64.cost_table 3 1 = Ok s.
Proof.
  split_and!; [done|done|apply binary64_overflow_table|done|].
  intros fuel (path & s & Hrun & _). by apply binary64_overflow_no_path in Hrun.
Qed.

(** C3, amended: for non-empty [x] and [y] whose final cost
    [table[len(x)][len(y)]] is finite, the sum of
    [distance(x[i-1], y[j-1])] over the elements [(i, j)] of the path
    with [i > 0] and [j > 0] is that final cost. *)
Theorem dtw_path_cost_is_final_cell
    {R : Type} `{NumLaws R} {obs : Type} (distance : obs → obs → R)
    (x y : list obs) (t : table R) (c : R) (fuel : nat) :
  x ≠ [] → y ≠ [] →
  dtw_table distance x y = Ok t →
  getitem2 t (Z.of_nat (length x)) (Z.of_nat (length y)) = Ok (Fin c) →
  (length x + length y ≤ fuel)%nat →
  ∃ path, dtw fuel x y t = Ok path ∧
    path_cost distance x y path = Ok (Fin c).
Proof.
  intros Hx Hy Htab Hc Hfuel.
  destruct (dtw_table_spec distance x y) as (t' & Ht' & Hspec).
  assert (t' = t) as -> by congruence.
  pose proof (final_cell_live distance x y t Hspec c Hx Hy Hc) as Hlive.
  destruct (dtw_run_cost distance x y t Hspec fuel Hlive Hfuel)
    as (path & Hrun & s & Hs & Hcell).
  exists path. split; [done|]. congruence.
Qed.

Lemma dtw_path_cost_witness :
  ∃ path, dtw 16 Example.x Example.y Example.cost_table = Ok path ∧
    path_cost Example.euclidean Example.x Example.y path = Ok (Fin 10).
Proof.
  refine (dtw_path_cost_is_final_cell
            Example.euclidean Example.x Example.y Example.cost_table 10 16 _ _ _ _ _).
  - discriminate.
  - discriminate.
  - vm_compute. reflexivity.
  - reflexivity.
  - simpl. lia.
Defined.

(** ** Growth of the table *)

(** C7 fails as stated: in the table of the notebook the cell [(4, 5)]
    holds [4] while the cell above it holds [6]; and on the binary64
    input above the interior cell [(2, 1)] is not finite. *)
Lemma example_cell_below_max_of_predecessors :
  dtw_table Example.euclidean Example.x Example.y = Ok Example.cost_table ∧
  getitem2 Example.cost_table 4 5 = Ok (Fin 4) ∧
  getitem2 Example.cost_table 3 5 = Ok (Fin 6) ∧
  ¬ at_least_max_of_predecessors Example.cost_table 4 5 ∧
  dtw_table Binary64.euclidean Binary64.x Binary64.y = Ok Binary64.cost_table ∧
  getitem2 Binary64.cost_table 2 1 = Ok Inf.
Proof.
  split; [vm_compute; reflexivity|]. split; [reflexivity|]. split; [reflexivity|].
  split; [|split; [apply binary64_overflow_table|reflexivity]].
  intros (v & a & b & c & Hv & Ha & Hb & Hc & _ & Hge).
  vm_compute in Hv, Ha, Hb, Hc.
  injection Hv as <-. injection Ha as <-. injection Hb as <-. injection Hc as <-.
  vm_compute in Hge. discriminate.
Qed.

(** C7, amended: with a distance that is never negative, every interior
    cell of the table is at least the minimum of its three predecessors
    (it is [+inf] when the sum overflows); and, for non-empty [x] and
    [y] whose final cost is finite, every cell on the path the
    backtracker returns is finite and the table does not decrease along
    that path. *)
Theorem dtw_table_at_least_min_of_predecessors
    {R : Type} `{NumLaws R} {obs : Type} (distance : obs → obs → R)
    (x y : list obs) (t : table R) :
  (∀ a b, ltb (distance a b) zero = false) →
  dtw_table distance x y = Ok t →
  (∀ i j, 1 ≤ i ≤ Z.of_nat (length x) → 1 ≤ j ≤ Z.of_nat (length y) →
     ∃ v a b c,
       getitem2 t i j = Ok v ∧
       getitem2 t (i - 1) j = Ok a ∧ getitem2 t i (j - 1) = Ok b ∧
       getitem2 t (i - 1) (j - 1) = Ok c ∧
       cge v (min3 a b c) = true) ∧
  (∀ (fuel : nat) (c : R), x ≠ [] → y ≠ [] →
     getitem2 t (Z.of_nat (length x)) (Z.of_nat (length y)) = Ok (Fin c) →
     (length x + length y ≤ fuel)%nat →
     ∃ path, dtw fuel x y t = Ok path ∧
       (∀ a, a ∈ path → ∃ r, getitem2 t a.1 a.2 = Ok (Fin r)) ∧
       ∀ (k : nat) a b, path !! k = Some a → path !! S k = Some b →
         ∃ va vb, getitem2 t a.1 a.2 = Ok va ∧ getitem2 t b.1 b.2 = Ok vb ∧
           cge vb va = true).
Proof.
  intros Hnonneg Htab.
  destruct (dtw_table_spec distance x y) as (t' & Ht' & Hspec).
  assert (t' = t) as -> by congruence.
  split.
  - intros i j Hi Hj. by apply (interior_ge_min distance Hnonneg x y).
  - intros fuel c Hx Hy Hc Hfuel.
    pose proof (final_cell_live distance x y t Hspec c Hx Hy Hc) as Hlive.
    destruct (dtw_run_nondecreasing distance Hnonneg x y t Hspec fuel c Hlive Hc Hfuel)
      as (path & Hrun & Hch & Hfin).
    exists path. split_and!; [done|done|done].
Qed.

Lemma dtw_table_at_least_min_witness :
  (∀ i j, 1 ≤ i ≤ 7 → 1 ≤ j ≤ 9 →
     ∃ v a b c,
       getitem2 Example.cost_table i j = Ok v ∧
       getitem2 Example.cost_table (i - 1) j = Ok a ∧
       getitem2 Example.cost_table i (j - 1) = Ok b ∧
       getitem2 Example.cost_table (i - 1) (j - 1) = Ok c ∧
       cge v (min3 a b c) = true) ∧
  (∃ path, dtw 16 Example.x Example.y Example.cost_table = Ok path ∧
     (∀ a, a ∈ path → ∃ r, getitem2 Example.cost_table a.1 a.2 = Ok (Fin r)) ∧
     ∀ (k : nat) a b, path !! k = Some a → path !! S k = Some b →
       ∃ va vb, getitem2 Example.cost_table a.1 a.2 = Ok va ∧
         getitem2 Example.cost_table b.1 b.2 = Ok vb ∧
         cge vb va = true).
Proof.
  destruct (dtw_table_at_least_min_of_predecessors
              Example.euclidean Example.x Example.y Example.cost_table)
    as [Hcells Hpath].
  - intros a b. unfold Example.euclidean. simpl. apply Z.ltb_ge. lia.
  - vm_compute. reflexivity.
  - split; [exact Hcells|]. apply (Hpath 16%nat 10).
    + discriminate.
    + discriminate.
    + reflexivity.
    + simpl. lia.
Defined.

(** ** One sequence empty *)

(** C6 fails as stated: with [x = [1]] and [y = []], exactly one sequence
    is empty and the backtracker returns a path.  At state [(1, 0)] the
    column index [-1] wraps around to column [0]. *)
Lemma one_empty_returns_a_path :
  dtw_table Example.euclidean [1] [] = Ok [[Fin 0]; [Inf]] ∧
  ∀ k : nat, dtw (2 + k) [1] [] [[Fin 0]; [Inf]] = Ok [(0, 0); (1, 0)].
Proof.
  split; [vm_compute; reflexivity|].
  intros k. unfold dtw. apply dtw_loop_fuel_mono. vm_compute. reflexivity.
Qed.

(** C6, amended: when one sequence is empty and the other has at least
    two elements, [dtw_table] returns a table whose only finite cell is
    [(0, 0)], and the backtracker fails in its first iteration, where no
    candidate is below [+inf]: it raises [UnboundLocalError] on reading
    [step], which was never assigned. *)
Theorem dtw_one_empty_raises_unbound_local
    {R : Type} `{Num R} {obs : Type} (distance : obs → obs → R)
    (x y : list obs) (fuel : nat) :
  (x = [] ∧ (2 ≤ length y)%nat) ∨ (y = [] ∧ (2 ≤ length x)%nat) →
  (1 ≤ fuel)%nat →
  ∃ t, dtw_table distance x y = Ok t ∧
    getitem2 t 0 0 = Ok (Fin zero) ∧
    (∀ i j v, 0 ≤ i ≤ Z.of_nat (length x) → 0 ≤ j ≤ Z.of_nat (length y) →
       getitem2 t i j = Ok v → is_fin v → i = 0 ∧ j = 0) ∧
    dtw fuel x y t = Raise UnboundLocalError.
Proof.
  intros Hxy Hfuel.
  destruct (dtw_table_spec distance x y) as (t & Ht & Hspec).
  exists t. split_and!; [done|by destruct Hspec| |].
  - intros i j v. apply only_origin_finite with (distance := distance); [|done].
    destruct Hxy as [[-> _]|[-> _]]; [by left|by right].
  - destruct fuel as [|fuel]; [lia|].
    destruct Hxy as [[-> Hy]|[-> Hx]].
    + rewrite dtw_table_nil_l in Ht. injection Ht as <-. by apply dtw_nil_l_raises.
    + rewrite dtw_table_nil_r in Ht. injection Ht as <-. by apply dtw_nil_r_raises.
Qed.

Lemma dtw_one_empty_raises_witness :
  ∃ t, dtw_table Example.euclidean [] [1; 2; 3] = Ok t ∧
    getitem2 t 0 0 = Ok (Fin 0) ∧
    (∀ i j v, 0 ≤ i ≤ 0 → 0 ≤ j ≤ 3 →
       getitem2 t i j = Ok v → is_fin v → i = 0 ∧ j = 0) ∧
    dtw 1 [] [1; 2; 3] t = Raise UnboundLocalError.
Proof.
  refine (dtw_one_empty_raises_unbound_local Example.euclidean [] [1; 2; 3] 1 _ _).
  - left. split; [reflexivity|simpl; lia].
  - lia.
Defined.

(** ** Swapping the two sequences *)

(** C8 fails as stated for the path: with [x = y = [0, 0]] every interior
    cell is [0], the backtracker prefers the step up, and the path it
    returns is not symmetric.  The swapped inputs are the same inputs, so
    the swapped run returns the same path and not its mirror image. *)
Lemma swapped_path_is_not_mirrored :
  dtw_table Example.euclidean Tie.x Tie.x = Ok Tie.cost_table ∧
  dtw_table (flip Example.euclidean) Tie.x Tie.x = Ok Tie.cost_table ∧
  dtw 4 Tie.x Tie.x Tie.cost_table = Ok Tie.path ∧
  prod_swap <$> Tie.path = [(0, 0); (1, 1); (2, 1); (2, 2)] ∧
  dtw 4 Tie.x Tie.x Tie.cost_table ≠ Ok (prod_swap <$> Tie.path).
Proof. split_and!; try (vm_compute; reflexivity). vm_compute. discriminate. Qed.

(** C8, amended: the table of the swapped sequences, built with the
    arguments of the distance swapped, is the transpose of the table of
    the original ones (at all indices, negative ones included); and when
    the backtracker returns a path on the original table and at no
    state of that path the up and the left candidates tie at a finite
    value no larger than the diagonal one, it returns on the swapped
    table that path with the coordinates of every element swapped. *)
Theorem dtw_swap_transposes
    {R : Type} `{NumLaws R} {obs : Type} (distance : obs → obs → R)
    (x y : list obs) (t t' : table R) :
  dtw_table distance x y = Ok t →
  dtw_table (flip distance) y x = Ok t' →
  (∀ i j : Z, getitem2 t' j i = getitem2 t i j) ∧
  (∀ (fuel : nat) path,
     dtw fuel x y t = Ok path → tie_free t path = true →
     dtw fuel y x t' = Ok (prod_swap <$> path)).
Proof.
  intros Htab Htab'.
  destruct (dtw_table_spec distance x y) as (t0 & Ht0 & Hspec).
  assert (t0 = t) as -> by congruence.
  destruct (dtw_table_spec (flip distance) y x) as (t0 & Ht0' & Hspec').
  assert (t0 = t') as -> by congruence.
  assert (Hswap : ∀ i j : Z, getitem2 t' j i = getitem2 t i j).
  { intros i j. by apply (dtw_table_swap distance x y). }
  split; [done|].
  intros fuel path Hrun Hfree. unfold dtw in *.
  apply (dtw_loop_swap t t' Hswap fuel _ _ None _ _ Hrun Hfree). by left.
Qed.

Lemma dtw_swap_transposes_witness :
  (∀ i j : Z, getitem2 Example.swapped_cost_table j i =
              getitem2 Example.cost_table i j) ∧
  dtw 12 Example.y Example.x Example.swapped_cost_table =
    Ok (prod_swap <$> Example.path).
Proof.
  destruct (dtw_swap_transposes Example.euclidean Example.x Example.y
              Example.cost_table Example.swapped_cost_table) as [Hcells Hpath].
  - vm_compute. reflexivity.
  - vm_compute. reflexivity.
  - split; [exact Hcells|].
    apply (Hpath 12%nat Example.path).
    + vm_compute. reflexivity.
    + vm_compute. reflexivity.
Defined.

(** * Further properties of the two functions *)

(** ** More laws of the numbers *)

(** Zero added to zero is zero, and addition keeps the order: a larger
    argument does not give a smaller sum.  Associativity is not among
    the laws: rounded addition does not have it. *)
Class AddLaws (R : Type) `{Num R} : Prop := {
  add_zero_zero : add zero zero = Fin zero;
  add_mono : ∀ d a b : R, ltb a b = false → clt (add d a) (add d b) = false;
}.

#[global] Instance Z_add_laws : AddLaws Z.
Proof.
  split; simpl.
  - done.
  - intros d a b ?%Z.ltb_ge. apply Z.ltb_ge. lia.
Qed.

Section Order.
Context {R : Type} `{NumLaws R}.
Implicit Types (a b c : cost R).

(** [a <= b], as [not (b < a)], is transitive. *)
Lemma ltb_le_trans (r s u : R) :
  ltb s r = false → ltb u s = false → ltb u r = false.
Proof.
  intros Hsr Hus. destruct (ltb u r) eqn:Hur; [|done].
  destruct (ltb s u) eqn:Hsu.
  - by rewrite (ltb_trans _ _ _ Hsu Hur) in Hsr.
  - assert (s = u) as -> by (by apply ltb_total). congruence.
Qed.

Lemma clt_le_trans a b c : clt b a = false → clt c b = false → clt c a = false.
Proof.
  destruct a, b, c; simpl; try done. apply ltb_le_trans.
Qed.

(** The minimum is one of the three and none of them is below it. *)
Lemma min3_cases a b c : min3 a b c = a ∨ min3 a b c = b ∨ min3 a b c = c.
Proof. unfold min3. destruct (clt b a); destruct (clt c _); auto. Qed.

Lemma min3_le a b c :
  clt a (min3 a b c) = false ∧ clt b (min3 a b c) = false ∧
  clt c (min3 a b c) = false.
Proof.
  unfold min3. destruct (clt b a) eqn:Hba.
  - destruct (clt c b) eqn:Hcb.
    + split_and!; [|by apply clt_asym|apply clt_irrefl].
      apply clt_asym. by apply (clt_trans _ b).
    + split_and!; [by apply clt_asym|apply clt_irrefl|].
      destruct (clt b c) eqn:Hbc; [by apply clt_asym|].
      by rewrite (clt_total _ _ Hbc Hcb) in Hcb |- *.
  - destruct (clt c a) eqn:Hca.
    + split_and!; [by apply clt_asym| |apply clt_irrefl].
      apply (clt_le_trans _ a); [by apply clt_asym|done].
    + split_and!; [apply clt_irrefl|done|].
      destruct (clt a c) eqn:Hac; [by apply clt_asym|].
      by rewrite (clt_total _ _ Hac Hca) in Hca |- *.
Qed.
End Order.

(** ** Warping paths *)

(** A warping path to cell [(i, j)]: it starts at [(1, 1)], ends at
    [(i, j)] and advances by one of the three moves. *)
Definition warping_path (i j : Z) (w : list (Z * Z)) : Prop :=
  head w = Some (1, 1) ∧ last w = Some (i, j) ∧ chain is_move w.

Lemma chain_app_l (P : Z * Z → Z * Z → Prop) (q r : list (Z * Z)) :
  chain P (q ++ r) → chain P q.
Proof.
  intros Hch k a b Ha Hb. apply (Hch k).
  - by apply lookup_app_l_Some.
  - by apply lookup_app_l_Some.
Qed.

Lemma chain_last_two (P : Z * Z → Z * Z → Prop) (q : list (Z * Z)) (a b : Z * Z) :
  chain P (q ++ [b]) → last q = Some a → P a b.
Proof.
  intros Hch Hlast. rewrite last_lookup in Hlast.
  assert (length q ≠ 0%nat) by (destruct q; [done|simpl; lia]).
  apply (Hch (pred (length q))).
  - by apply lookup_app_l_Some.
  - replace (S (pred (length q))) with (length q) by lia.
    rewrite lookup_app_r by lia. by rewrite Nat.sub_diag.
Qed.

Lemma chain_head_le (q : list (Z * Z)) (a b : Z * Z) :
  chain is_move q → head q = Some a → last q = Some b → a.1 ≤ b.1 ∧ a.2 ≤ b.2.
Proof.
  intros Hch Hhd Hlast. rewrite last_lookup in Hlast.
  apply (chain_mono q 0 (pred (length q)) a b); [done|by destruct q|done].
Qed.

Section Optimal.
Context {R : Type} `{NumLaws R} `{!AddLaws R}.
Context {obs : Type}.
Variable distance : obs → obs → R.
Variables x y : list obs.
Variable t : table R.
Hypothesis Ht : is_dtw_table distance x y t.

Lemma cadd_comm (a b : cost R) : cadd a b = cadd b a.
Proof. destruct a, b; simpl; try done. apply add_comm. Qed.

(** A larger argument does not give a smaller sum, [+inf] included. *)
Lemma cadd_mono (d : R) (a b : cost R) :
  clt a b = false → clt (cadd (Fin d) a) (cadd (Fin d) b) = false.
Proof.
  destruct a as [ra|], b as [rb|]; simpl; try done.
  apply add_mono.
Qed.

(** No warping path to an interior cell costs less than the entry of
    the table there. *)
Lemma table_le_warping_path (w : list (Z * Z)) :
  ∀ i j, interior x y i j → warping_path i j w →
    ∃ s r, path_cost distance x y w = Ok s ∧ getitem2 t i j = Ok r ∧
      clt s r = false.
Proof.
  induction w as [|c w IH] using rev_ind; intros i j Hij (Hhd & Hlast & Hch); [done|].
  rewrite last_snoc in Hlast. injection Hlast as ->.
  destruct (interior_rec_at distance x y t Ht i j Hij)
    as (xi & yj & a & b & c & Hxi & Hyj & Ha & Hb & Hc & Hv).
  assert (Hcount : (0 <? i) && (0 <? j) = true).
  { destruct Hij. apply andb_true_iff. split; apply Z.ltb_lt; lia. }
  destruct w as [|c0 w0] using rev_ind.
  - simpl in Hhd. injection Hhd as -> ->.
    pose proof (fl_origin _ _ _ _ _ _ Ht) as Horig.
    pose proof (fl_col0 _ _ _ _ _ _ Ht 1) as Hcol.
    pose proof (fl_row0 _ _ _ _ _ _ Ht 1) as Hrow.
    destruct Hij as [Hi Hj].
    change (1 - 1) with 0 in *. rewrite Hrow in Ha by lia. rewrite Hcol in Hb by lia.
    assert (a = Inf) as -> by congruence. assert (b = Inf) as -> by congruence.
    assert (c = Fin zero) as -> by congruence.
    exists (add zero (distance xi yj)), (add (distance xi yj) zero).
    split_and!.
    + unfold path_cost. simpl. change (1 - 1) with 0. by rewrite Hxi, Hyj.
    + done.
    + rewrite add_comm. apply clt_irrefl.
  - clear IHw0. destruct c0 as [i' j'].
    assert (Hmove : is_move (i', j') (i, j)).
    { apply (chain_last_two _ (w0 ++ [(i', j')])); [done|by rewrite last_snoc]. }
    assert (Hw : warping_path i' j' (w0 ++ [(i', j')])).
    { split_and!.
      - by destruct w0.
      - by rewrite last_snoc.
      - by apply chain_app_l in Hch. }
    assert (Hij' : interior x y i' j').
    { destruct Hw as (Hhd' & Hlast' & Hch').
      destruct (chain_head_le _ _ _ Hch' Hhd' Hlast') as [? ?]. simpl in *.
      destruct Hij. unfold interior. unfold is_move in Hmove. simpl in Hmove.
      destruct Hmove as [E|[E|E]]; injection E as -> ->; lia. }
    destruct (IH i' j' Hij' Hw) as (s' & r' & Hs' & Hr' & Hle).
    exists (cadd s' (Fin (distance xi yj))),
      (cadd (Fin (distance xi yj)) (min3 a b c)).
    split_and!.
    + unfold path_cost in *. rewrite path_cost_from_app, Hs'. simpl.
      by rewrite Hcount, Hxi, Hyj.
    + done.
    + rewrite (cadd_comm s'). apply cadd_mono.
      apply (clt_le_trans _ r'); [|done].
      destruct (min3_le a b c) as (Hma & Hmb & Hmc).
      unfold is_move in Hmove. simpl in Hmove.
      destruct Hmove as [E|[E|E]]; injection E as -> ->.
      * replace (i' + 1 - 1) with i' in Ha by lia.
        assert (a = r') as -> by congruence. done.
      * replace (j' + 1 - 1) with j' in Hb by lia.
        assert (b = r') as -> by congruence. done.
      * replace (i' + 1 - 1) with i' in Hc by lia.
        replace (j' + 1 - 1) with j' in Hc by lia.
        assert (c = r') as -> by congruence. done.
Qed.
End Optimal.

Lemma chain_tail (P : Z * Z → Z * Z → Prop) (a : Z * Z) (q : list (Z * Z)) :
  chain P (a :: q) → chain P q.
Proof. intros Hch k b c Hb Hc. by apply (Hch (S k)). Qed.

(** Along a chain of moves a coordinate takes every value between its
    first and its last one. *)
Lemma chain_covers (f : Z * Z → Z) :
  (∀ a b, is_move a b → f a ≤ f b ≤ f a + 1) →
  ∀ (q : list (Z * Z)) (a b : Z * Z),
    chain is_move q → head q = Some a → last q = Some b →
    ∀ v, f a ≤ v ≤ f b → ∃ c, c ∈ q ∧ f c = v.
Proof.
  intros Hf q. induction q as [|a0 q IH]; intros a b Hch Hhd Hlast v Hv; [done|].
  simpl in Hhd. injection Hhd as ->.
  destruct (decide (v = f a)) as [->|Hne].
  { exists a. split; [by left|done]. }
  destruct q as [|a1 q].
  { simpl in Hlast. injection Hlast as ->. lia. }
  assert (Hmove : is_move a a1) by (by apply (Hch 0%nat)).
  apply Hf in Hmove.
  destruct (IH a1 b) with (v := v) as (c & Hc & Hfc).
  - by apply chain_tail in Hch.
  - done.
  - by rewrite last_cons_cons in Hlast.
  - lia.
  - exists c. split; [by right|done].
Qed.

Lemma is_move_fst (a b : Z * Z) : is_move a b → a.1 ≤ b.1 ≤ a.1 + 1.
Proof. intros [ -> | [ -> | -> ] ]; simpl; lia. Qed.

Lemma is_move_snd (a b : Z * Z) : is_move a b → a.2 ≤ b.2 ≤ a.2 + 1.
Proof. intros [ -> | [ -> | -> ] ]; simpl; lia. Qed.

Section RunWarping.
Context {R : Type} `{Num R}.
Context {obs : Type}.
Variable distance : obs → obs → R.
Variables x y : list obs.
Variable t : table R.
Hypothesis Ht : is_dtw_table distance x y t.

(** After its first element, [(0, 0)], the path is a warping path. *)
Lemma dtw_run_warping_path (fuel : nat) :
  live x y t (Z.of_nat (length x)) (Z.of_nat (length y)) →
  (length x + length y ≤ fuel)%nat →
  ∃ w, dtw fuel x y t = Ok ((0, 0) :: w) ∧
    warping_path (Z.of_nat (length x)) (Z.of_nat (length y)) w ∧
    well_formed_upto x y (Z.of_nat (length x)) (Z.of_nat (length y)) ((0, 0) :: w).
Proof.
  intros Hlive Hfuel.
  destruct (dtw_run_well_formed distance x y t Ht fuel Hlive Hfuel)
    as (path & Hrun & Hwf).
  pose proof Hwf as (Hhd & Hlast & Hch & _ & H11 & _).
  pose proof Hlive as [[Hnx Hny] _].
  destruct path as [|p0 w]; [done|]. simpl in Hhd. injection Hhd as ->.
  exists w. split_and!; try done.
  split_and!.
  - specialize (H11 ltac:(split; lia)). by destruct w.
  - specialize (H11 ltac:(split; lia)). destruct w; [done|].
    by rewrite last_cons_cons in Hlast.
  - by apply chain_tail in Hch.
Qed.
End RunWarping.

(** ** Optimality *)

(** X1: every interior cell [(i, j)] of the table is a lower bound on
    the cost of the warping paths from [(1, 1)] to [(i, j)]: no such path
    has a sum of distances below the entry, where a sum or an entry
    that has overflowed is [+inf]. *)
Theorem dtw_table_cell_bounds_warping_paths
    {R : Type} `{NumLaws R} `{!AddLaws R} {obs : Type}
    (distance : obs → obs → R) (x y : list obs) (t : table R)
    (i j : Z) (w : list (Z * Z)) :
  dtw_table distance x y = Ok t →
  1 ≤ i ≤ Z.of_nat (length x) → 1 ≤ j ≤ Z.of_nat (length y) →
  warping_path i j w →
  ∃ s r, path_cost distance x y w = Ok s ∧ getitem2 t i j = Ok r ∧
    clt s r = false.
Proof.
  intros Htab Hi Hj Hw.
  destruct (dtw_table_spec distance x y) as (t' & Ht' & Hspec).
  assert (t' = t) as -> by congruence.
  by apply (table_le_warping_path distance x y t Hspec).
Qed.

Lemma dtw_table_cell_bounds_witness :
  ∃ s r, path_cost Example.euclidean Example.x Example.y [(1, 1); (1, 2); (2, 3)] = Ok s ∧
    getitem2 Example.cost_table 2 3 = Ok r ∧ clt s r = false.
Proof.
  refine (dtw_table_cell_bounds_warping_paths Example.euclidean Example.x Example.y
            Example.cost_table 2 3 [(1, 1); (1, 2); (2, 3)] _ _ _ _).
  - vm_compute. reflexivity.
  - simpl. lia.
  - simpl. lia.
  - split_and!; [reflexivity|reflexivity|].
    intros k a b Ha Hb.
    destruct k as [|[|k]]; simpl in Ha, Hb; try discriminate;
      injection Ha as <-; injection Hb as <-; unfold is_move; simpl; auto.
Defined.

(** X2: for non-empty [x] and [y] whose final cost
    [table[len(x)][len(y)]] is finite, what [dtw] returns after [(0, 0)]
    is a warping path to [(len(x), len(y))] of minimal cost: its sum of
    distances is the final cost, and no warping path to that cell has a
    smaller sum (a sum that has overflowed is [+inf]). *)
Theorem dtw_returns_optimal_warping_path
    {R : Type} `{NumLaws R} `{!AddLaws R} {obs : Type}
    (distance : obs → obs → R) (x y : list obs) (t : table R) (c : R)
    (fuel : nat) :
  x ≠ [] → y ≠ [] →
  dtw_table distance x y = Ok t →
  getitem2 t (Z.of_nat (length x)) (Z.of_nat (length y)) = Ok (Fin c) →
  (length x + length y ≤ fuel)%nat →
  ∃ w, dtw fuel x y t = Ok ((0, 0) :: w) ∧
    warping_path (Z.of_nat (length x)) (Z.of_nat (length y)) w ∧
    path_cost distance x y w = Ok (Fin c) ∧
    ∀ w', warping_path (Z.of_nat (length x)) (Z.of_nat (length y)) w' →
      ∃ s', path_cost distance x y w' = Ok s' ∧ clt s' (Fin c) = false.
Proof.
  intros Hx Hy Htab Hc Hfuel.
  destruct (dtw_table_spec distance x y) as (t' & Ht' & Hspec).
  assert (t' = t) as -> by congruence.
  pose proof (final_cell_live distance x y t Hspec c Hx Hy Hc) as Hlive.
  destruct (dtw_run_warping_path distance x y t Hspec fuel Hlive Hfuel)
    as (w & Hrun & Hw & _).
  destruct (dtw_run_cost distance x y t Hspec fuel Hlive Hfuel)
    as (path & Hrun' & s & Hs & Hcell).
  assert (path = (0, 0) :: w) as -> by congruence.
  assert (s = Fin c) as -> by congruence.
  exists w. split_and!; try done.
  intros w' Hw'.
  pose proof Hlive as [Hint _].
  destruct (table_le_warping_path distance x y t Hspec w'
              (Z.of_nat (length x)) (Z.of_nat (length y)) Hint Hw')
    as (s' & r & Hs' & Hr & Hle).
  exists s'. split; [done|]. congruence.
Qed.

Lemma dtw_returns_optimal_witness :
  ∃ w, dtw 16 Example.x Example.y Example.cost_table = Ok ((0, 0) :: w) ∧
    warping_path 7 9 w ∧
    path_cost Example.euclidean Example.x Example.y w = Ok (Fin 10) ∧
    ∀ w', warping_path 7 9 w' →
      ∃ s', path_cost Example.euclidean Example.x Example.y w' = Ok s' ∧
        clt s' (Fin 10) = false.
Proof.
  refine (dtw_returns_optimal_warping_path Example.euclidean Example.x Example.y
            Example.cost_table 10 16 _ _ _ _ _).
  - discriminate.
  - discriminate.
  - vm_compute. reflexivity.
  - vm_compute. reflexivity.
  - simpl. lia.
Defined.

(** ** Coverage *)

(** X3: for non-empty [x] and [y] whose final cost
    [table[len(x)][len(y)]] is finite, the path aligns every element of
    both sequences: each row index [1..len(x)] and each column index
    [1..len(y)] occurs in some element of the path. *)
Theorem dtw_path_covers_both_sequences
    {R : Type} `{Num R} {obs : Type} (distance : obs → obs → R)
    (x y : list obs) (t : table R) (c : R) (fuel : nat) :
  x ≠ [] → y ≠ [] →
  dtw_table distance x y = Ok t →
  getitem2 t (Z.of_nat (length x)) (Z.of_nat (length y)) = Ok (Fin c) →
  (length x + length y ≤ fuel)%nat →
  ∃ path, dtw fuel x y t = Ok path ∧
    (∀ i, 1 ≤ i ≤ Z.of_nat (length x) →
       ∃ j, 1 ≤ j ≤ Z.of_nat (length y) ∧ (i, j) ∈ path) ∧
    (∀ j, 1 ≤ j ≤ Z.of_nat (length y) →
       ∃ i, 1 ≤ i ≤ Z.of_nat (length x) ∧ (i, j) ∈ path).
Proof.
  intros Hx Hy Htab Hc Hfuel.
  destruct (dtw_table_spec distance x y) as (t' & Ht' & Hspec).
  assert (t' = t) as -> by congruence.
  pose proof (final_cell_live distance x y t Hspec c Hx Hy Hc) as Hlive.
  destruct (dtw_run_well_formed distance x y t Hspec fuel Hlive Hfuel)
    as (path & Hrun & Hhd & Hlast & Hch & Hint & _ & _).
  assert (Hin : ∀ a, a ∈ path → a = (0, 0) ∨ interior x y a.1 a.2).
  { intros a [k Hk]%list_elem_of_lookup. destruct k as [|k].
    - left. destruct path; simpl in *; congruence.
    - right. apply (Hint (S k)); [lia|done]. }
  exists path. split_and!; [done| |].
  - intros i Hi.
    destruct (chain_covers fst is_move_fst path _ _ Hch Hhd Hlast i)
      as ([i' j] & Hin1 & Hfc); [simpl; lia|].
    simpl in Hfc. subst i'. exists j. split; [|done].
    destruct (Hin _ Hin1) as [E|[_ ?]]; [injection E as -> ->; lia|done].
  - intros j Hj.
    destruct (chain_covers snd is_move_snd path _ _ Hch Hhd Hlast j)
      as ([i j'] & Hin1 & Hfc); [simpl; lia|].
    simpl in Hfc. subst j'. exists i. split; [|done].
    destruct (Hin _ Hin1) as [E|[? _]]; [injection E as -> ->; lia|done].
Qed.

Lemma dtw_path_covers_witness :
  ∃ path, dtw 16 Example.x Example.y Example.cost_table = Ok path ∧
    (∀ i, 1 ≤ i ≤ 7 → ∃ j, 1 ≤ j ≤ 9 ∧ (i, j) ∈ path) ∧
    (∀ j, 1 ≤ j ≤ 9 → ∃ i, 1 ≤ i ≤ 7 ∧ (i, j) ∈ path).
Proof.
  refine (dtw_path_covers_both_sequences Example.euclidean Example.x Example.y
            Example.cost_table 10 16 _ _ _ _ _).
  - discriminate.
  - discriminate.
  - vm_compute. reflexivity.
  - vm_compute. reflexivity.
  - simpl. lia.
Defined.

(** ** Prefixes *)

Lemma getitem_take {A} (l : list A) (p : nat) (k : Z) :
  0 ≤ k < Z.of_nat p → getitem (take p l) k = getitem l k.
Proof.
  intros Hk. rewrite !getitem_nonneg by lia. by rewrite lookup_take_lt by lia.
Qed.

Section Prefix.
Context {R : Type} `{Num R}.
Context {obs : Type}.
Variable distance : obs → obs → R.
Variables x y : list obs.
Variables p q : nat.
Variables t t' : table R.
Hypothesis Hp : (p ≤ length x)%nat.
Hypothesis Hq : (q ≤ length y)%nat.
Hypothesis Ht : is_dtw_table distance x y t.
Hypothesis Ht' : is_dtw_table distance (take p x) (take q y) t'.

(** The table of two prefixes is the corresponding corner of the table
    of the whole sequences. *)
Lemma dtw_table_prefix_cells (i j : Z) :
  0 ≤ i ≤ Z.of_nat p → 0 ≤ j ≤ Z.of_nat q →
  getitem2 t' i j = getitem2 t i j.
Proof.
  assert (Hlp : length (take p x) = p) by (rewrite length_take; lia).
  assert (Hlq : length (take q y) = q) by (rewrite length_take; lia).
  cut (∀ n : nat, ∀ i j, 0 ≤ i ≤ Z.of_nat p → 0 ≤ j ≤ Z.of_nat q →
         i + j ≤ Z.of_nat n → getitem2 t' i j = getitem2 t i j).
  { intros Hcut Hi Hj. apply (Hcut (Z.to_nat (i + j))); [done|done|lia]. }
  clear i j. intros n. induction n as [|n IH]; intros i j Hi Hj Hle.
  { assert (i = 0) as -> by lia. assert (j = 0) as -> by lia.
    by rewrite (fl_origin _ _ _ _ _ _ Ht), (fl_origin _ _ _ _ _ _ Ht'). }
  destruct (decide (i = 0)) as [->|Hi0].
  { destruct (decide (j = 0)) as [->|Hj0].
    - by rewrite (fl_origin _ _ _ _ _ _ Ht), (fl_origin _ _ _ _ _ _ Ht').
    - rewrite (fl_row0 _ _ _ _ _ _ Ht) by lia.
      by rewrite (fl_row0 _ _ _ _ _ _ Ht') by lia. }
  destruct (decide (j = 0)) as [->|Hj0].
  { rewrite (fl_col0 _ _ _ _ _ _ Ht) by lia.
    by rewrite (fl_col0 _ _ _ _ _ _ Ht') by lia. }
  destruct (fl_rec _ _ _ _ _ _ Ht i j)
    as (xi & yj & a & b & c & Hxi & Hyj & Ha & Hb & Hc & Hv); [lia|lia|lia|].
  destruct (fl_rec _ _ _ _ _ _ Ht' i j)
    as (xi' & yj' & a' & b' & c' & Hxi' & Hyj' & Ha' & Hb' & Hc' & Hv'); [lia|lia|lia|].
  rewrite getitem_take in Hxi', Hyj' by lia.
  rewrite IH in Ha', Hb', Hc' by lia.
  rewrite Hv, Hv'.
  assert (xi' = xi) as -> by congruence. assert (yj' = yj) as -> by congruence.
  assert (a' = a) as -> by congruence. assert (b' = b) as -> by congruence.
  assert (c' = c) as -> by congruence.
  done.
Qed.
End Prefix.

(** X4: cell [(i, j)] of the table of [x] and [y] is the final cell of
    the table of the prefixes [x[:i]] and [y[:j]]; more generally the
    table of two prefixes agrees with the table of the whole sequences
    on all its cells. *)
Theorem dtw_table_of_prefixes
    {R : Type} `{Num R} {obs : Type} (distance : obs → obs → R)
    (x y : list obs) (p q : nat) (t t' : table R) :
  (p ≤ length x)%nat → (q ≤ length y)%nat →
  dtw_table distance x y = Ok t →
  dtw_table distance (take p x) (take q y) = Ok t' →
  ∀ i j, 0 ≤ i ≤ Z.of_nat p → 0 ≤ j ≤ Z.of_nat q →
    getitem2 t' i j = getitem2 t i j.
Proof.
  intros Hp Hq Htab Htab'.
  destruct (dtw_table_spec distance x y) as (t0 & Ht0 & Hspec).
  assert (t0 = t) as -> by congruence.
  destruct (dtw_table_spec distance (take p x) (take q y)) as (t0 & Ht0' & Hspec').
  assert (t0 = t') as -> by congruence.
  by apply (dtw_table_prefix_cells distance x y p q).
Qed.

Lemma dtw_table_of_prefixes_witness :
  getitem2 [[Fin 0; Inf; Inf; Inf]; [Inf; Fin 1; Fin 4; Fin 8];
            [Inf; Fin 4; Fin 2; Fin 2]] 2 3 =
  getitem2 Example.cost_table 2 3.
Proof.
  refine (dtw_table_of_prefixes Example.euclidean Example.x Example.y 2 3
            Example.cost_table _ _ _ _ _ 2 3 _ _).
  - simpl. lia.
  - simpl. lia.
  - vm_compute. reflexivity.
  - vm_compute. reflexivity.
  - lia.
  - lia.
Defined.

(** ** Symmetric distances *)

Section Symmetric.
Context {R : Type} `{Num R}.
Context {obs : Type}.

(** The table only depends on the values of the distance. *)
Lemma is_dtw_table_ext (d1 d2 : obs → obs → R) (x y : list obs) (t : table R) :
  (∀ a b, d1 a b = d2 a b) → is_dtw_table d1 x y t → is_dtw_table d2 x y t.
Proof.
  intros Hd [Hsh Horig Hcol Hrow Hrec]. split; try done.
  intros i j Hi Hj Hlt.
  destruct (Hrec i j Hi Hj Hlt) as (xi & yj & a & b & c & ? & ? & ? & ? & ? & Hv).
  exists xi, yj, a, b, c. rewrite <-Hd. done.
Qed.
End Symmetric.

(** X5: with a symmetric distance the table of [(y, x)] is the transpose
    of the table of [(x, y)]; in particular the two final costs are the
    same. *)
Theorem dtw_table_symmetric
    {R : Type} `{NumLaws R} {obs : Type} (distance : obs → obs → R)
    (x y : list obs) (t t' : table R) :
  (∀ a b, distance a b = distance b a) →
  dtw_table distance x y = Ok t →
  dtw_table distance y x = Ok t' →
  (∀ i j : Z, getitem2 t' j i = getitem2 t i j) ∧
  getitem2 t' (Z.of_nat (length y)) (Z.of_nat (length x)) =
    getitem2 t (Z.of_nat (length x)) (Z.of_nat (length y)).
Proof.
  intros Hsym Htab Htab'.
  destruct (dtw_table_spec distance x y) as (t0 & Ht0 & Hspec).
  assert (t0 = t) as -> by congruence.
  destruct (dtw_table_spec distance y x) as (t0 & Ht0' & Hspec').
  assert (t0 = t') as -> by congruence.
  assert (Hswap : ∀ i j : Z, getitem2 t' j i = getitem2 t i j).
  { intros i j. apply (dtw_table_swap distance x y); [done|].
    apply (is_dtw_table_ext distance); [|done]. intros a b. apply Hsym. }
  split; [done|apply Hswap].
Qed.

Lemma dtw_table_symmetric_witness :
  (∀ i j : Z, getitem2 Example.swapped_cost_table j i =
              getitem2 Example.cost_table i j) ∧
  getitem2 Example.swapped_cost_table 9 7 = getitem2 Example.cost_table 7 9.
Proof.
  refine (dtw_table_symmetric Example.euclidean Example.x Example.y
            Example.cost_table Example.swapped_cost_table _ _ _).
  - intros a b. unfold Example.euclidean. lia.
  - vm_compute. reflexivity.
  - vm_compute. reflexivity.
Defined.

(** ** A sequence against itself *)

Section Self.
Context {R : Type} `{NumLaws R} `{!AddLaws R}.
Context {obs : Type}.
Variable distance : obs → obs → R.
Hypothesis distance_nonneg : ∀ a b, ltb (distance a b) zero = false.
Variables x y : list obs.
Variable t : table R.
Hypothesis Ht : is_dtw_table distance x y t.

(** No entry of the table is negative. *)
Lemma table_nonneg (i j : Z) (r : R) :
  0 ≤ i ≤ Z.of_nat (length x) → 0 ≤ j ≤ Z.of_nat (length y) →
  getitem2 t i j = Ok (Fin r) → ltb r zero = false.
Proof.
  cut (∀ n : nat, ∀ i j r, 0 ≤ i ≤ Z.of_nat (length x) → 0 ≤ j ≤ Z.of_nat (length y) →
         i + j ≤ Z.of_nat n → getitem2 t i j = Ok (Fin r) → ltb r zero = false).
  { intros Hcut Hi Hj. apply (Hcut (Z.to_nat (i + j))); [done|done|lia]. }
  clear i j r. intros n. induction n as [|n IH]; intros i j r Hi Hj Hle Hr.
  { assert (i = 0) as -> by lia. assert (j = 0) as -> by lia.
    rewrite (fl_origin _ _ _ _ _ _ Ht) in Hr. injection Hr as <-. apply ltb_irrefl. }
  destruct (decide (i = 0)) as [->|Hi0].
  { destruct (decide (j = 0)) as [->|Hj0].
    - rewrite (fl_origin _ _ _ _ _ _ Ht) in Hr. injection Hr as <-. apply ltb_irrefl.
    - rewrite (fl_row0 _ _ _ _ _ _ Ht) in Hr by lia. done. }
  destruct (decide (j = 0)) as [->|Hj0].
  { rewrite (fl_col0 _ _ _ _ _ _ Ht) in Hr by lia. done. }
  destruct (fl_rec _ _ _ _ _ _ Ht i j)
    as (xi & yj & a & b & c & Hxi & Hyj & Ha & Hb & Hc & Hv); [lia|lia|lia|].
  assert (Hsum : cadd (Fin (distance xi yj)) (min3 a b c) = Fin r) by congruence.
  apply cadd_Fin_inv in Hsum as (d & m & Hd & Hm & Hsum). injection Hd as <-.
  apply (ltb_le_trans _ m).
  - destruct (min3_cases a b c) as [E|[E|E]]; rewrite Hm in E; subst.
    + apply (IH (i - 1) j); [lia|lia|lia|done].
    + apply (IH i (j - 1)); [lia|lia|lia|done].
    + apply (IH (i - 1) (j - 1)); [lia|lia|lia|done].
  - pose proof (add_nonneg (distance xi yj) m (distance_nonneg xi yj)) as Hdm.
    by rewrite Hsum in Hdm.
Qed.
End Self.

(** X6: when the distance is never negative and is zero between equal
    observations, aligning a sequence with itself costs nothing: the
    diagonal of the table of [(x, x)], and so its final cell, is zero. *)
Theorem dtw_table_self_alignment_is_free
    {R : Type} `{NumLaws R} `{!AddLaws R} {obs : Type}
    (distance : obs → obs → R) (x : list obs) (t : table R) :
  (∀ a b, ltb (distance a b) zero = false) →
  (∀ a, distance a a = zero) →
  dtw_table distance x x = Ok t →
  (∀ i, 0 ≤ i ≤ Z.of_nat (length x) → getitem2 t i i = Ok (Fin zero)) ∧
  getitem2 t (Z.of_nat (length x)) (Z.of_nat (length x)) = Ok (Fin zero).
Proof.
  intros Hnonneg Hrefl Htab.
  destruct (dtw_table_spec distance x x) as (t' & Ht' & Hspec).
  assert (t' = t) as -> by congruence.
  assert (Hdiag : ∀ n : nat, (n ≤ length x)%nat →
            getitem2 t (Z.of_nat n) (Z.of_nat n) = Ok (Fin zero)).
  { intros n. induction n as [|n IH]; intros Hn.
    { apply (fl_origin _ _ _ _ _ _ Hspec). }
    destruct (fl_rec _ _ _ _ _ _ Hspec (Z.of_nat (S n)) (Z.of_nat (S n)))
      as (xi & yj & a & b & c & Hxi & Hyj & Ha & Hb & Hc & Hv); [lia|lia|lia|].
    replace (Z.of_nat (S n) - 1) with (Z.of_nat n) in * by lia.
    rewrite IH in Hc by lia. injection Hc as <-.
    assert (yj = xi) as -> by congruence.
    rewrite Hv, Hrefl.
    destruct (min3_le a b (Fin zero)) as (_ & _ & Hle).
    destruct (min3_cases a b (Fin zero)) as [E|[E|E]].
    - rewrite E in Hle |- *. destruct a as [r|]; [|done].
      assert (r = zero) as ->.
      { apply ltb_total; [|done].
        apply (table_nonneg distance Hnonneg x x t Hspec (Z.of_nat n) (Z.of_nat (S n)));
          [lia|lia|done]. }
      simpl. by rewrite add_zero_zero.
    - rewrite E in Hle |- *. destruct b as [r|]; [|done].
      assert (r = zero) as ->.
      { apply ltb_total; [|done].
        apply (table_nonneg distance Hnonneg x x t Hspec (Z.of_nat (S n)) (Z.of_nat n));
          [lia|lia|done]. }
      simpl. by rewrite add_zero_zero.
    - rewrite E. simpl. by rewrite add_zero_zero. }
  split.
  - intros i Hi. rewrite <-(Z2Nat.id i) by lia. apply Hdiag. lia.
  - by apply Hdiag.
Qed.

Lemma dtw_table_self_alignment_witness :
  (∀ i, 0 ≤ i ≤ 2 → getitem2 Tie.cost_table i i = Ok (Fin 0)) ∧
  getitem2 Tie.cost_table 2 2 = Ok (Fin 0).
Proof.
  refine (dtw_table_self_alignment_is_free Example.euclidean Tie.x Tie.cost_table _ _ _).
  - intros a b. unfold Example.euclidean. simpl. apply Z.ltb_ge. lia.
  - intros a. unfold Example.euclidean. simpl. lia.
  - vm_compute. reflexivity.
Defined.

(** ** Degenerate inputs that return *)

Lemma dtw_at_most_one_element
    {R : Type} `{NumLaws R} {obs : Type} (distance : obs → obs → R)
    (x y : list obs) (k : nat) :
  (length x + length y ≤ 1)%nat →
  ∃ t, dtw_table distance x y = Ok t ∧
    dtw (2 + k) x y t =
      Ok (if (length x + length y =? 0)%nat then [(0, 0)]
          else [(0, 0); (Z.of_nat (length x), Z.of_nat (length y))]).
Proof.
  intros Hlen. destruct x as [|a [|? ?]], y as [|b [|? ?]]; simpl in Hlen; try lia.
  - eexists. split; [apply dtw_table_nil_l|]. done.
  - eexists. split; [apply dtw_table_nil_l|].
    unfold dtw, dtw_loop, dtw_body. simpl. by rewrite ltb_irrefl.
  - eexists. split; [apply dtw_table_nil_r|].
    unfold dtw, dtw_loop, dtw_body. simpl. by rewrite ltb_irrefl.
Qed.

(** X7: when the two sequences have at most one element together, the
    backtracker returns: [[(0, 0)]] when both are empty, and
    [[(0, 0), (len(x), len(y))]] when one is empty and the other has a
    single element (the index [-1] then wraps around to row or column
    [0], where it finds the origin). *)
Theorem dtw_at_most_one_element_returns
    {R : Type} `{NumLaws R} {obs : Type} (distance : obs → obs → R)
    (x y : list obs) (k : nat) :
  (length x + length y ≤ 1)%nat →
  ∃ t, dtw_table distance x y = Ok t ∧
    dtw (2 + k) x y t =
      Ok (if (length x + length y =? 0)%nat then [(0, 0)]
          else [(0, 0); (Z.of_nat (length x), Z.of_nat (length y))]).
Proof. apply dtw_at_most_one_element. Qed.

Lemma dtw_at_most_one_element_witness :
  ∃ t, dtw_table Example.euclidean [] [5] = Ok t ∧
    dtw 2 [] [5] t = Ok [(0, 0); (0, 1)].
Proof.
  refine (dtw_at_most_one_element_returns Example.euclidean [] [5] 0 _).
  simpl. lia.
Defined.

(** X15: on the table that [dtw_table] builds for them, and for any two
    sequences, [dtw] either returns a path or raises [UnboundLocalError]:
    it never reads outside the table and never loops on, given
    [len(x) + len(y)] tests of its condition (and at least two). *)
Theorem dtw_on_own_table_returns_or_unbound
    {R : Type} `{NumLaws R} {obs : Type} (distance : obs → obs → R)
    (x y : list obs) (fuel : nat) :
  (2 ≤ fuel)%nat → (length x + length y ≤ fuel)%nat →
  ∃ t, dtw_table distance x y = Ok t ∧
    ((∃ path, dtw fuel x y t = Ok path) ∨ dtw fuel x y t = Raise UnboundLocalError).
Proof.
  intros Hfuel2 Hfuel.
  destruct (decide (length x + length y ≤ 1)%nat) as [Hshort|Hlong].
  { destruct (dtw_at_most_one_element distance x y (fuel - 2) Hshort) as (t & Ht & Hrun).
    replace (2 + (fuel - 2))%nat with fuel in Hrun by lia.
    exists t. split; [done|]. left. eauto. }
  destruct (dtw_table_spec distance x y) as (t & Ht & Hspec).
  exists t. split; [done|].
  destruct x as [|x0 x'].
  { right. rewrite dtw_table_nil_l in Ht. injection Ht as <-.
    destruct fuel as [|fuel]; [lia|]. apply dtw_nil_l_raises. simpl in Hlong. lia. }
  destruct y as [|y0 y'].
  { right. rewrite dtw_table_nil_r in Ht. injection Ht as <-.
    destruct fuel as [|fuel]; [lia|].
    refine (dtw_nil_r_raises (x0 :: x') fuel _). simpl in Hlong |- *. lia. }
  assert (Hint : interior (x0 :: x') (y0 :: y')
            (Z.of_nat (length (x0 :: x'))) (Z.of_nat (length (y0 :: y')))).
  { split; simpl length; lia. }
  destruct (interior_rec_at distance _ _ t Hspec _ _ Hint)
    as (xi & yj & a & b & c & _ & _ & Ha & Hb & Hc & _).
  destruct (min3 a b c) as [m|] eqn:Hm.
  - left.
    destruct (dtw_run_well_formed distance _ _ t Hspec fuel) as (path & Hrun & _);
      [|done|by eauto].
    split; [done|]. exists a, b, c. split_and!; try done. rewrite Hm. by exists m.
  - right. apply min3_Inf in Hm as (-> & -> & ->).
    destruct fuel as [|fuel]; [lia|].
    by apply dtw_first_iteration_unbound; [left|..].
Qed.

Lemma dtw_on_own_table_witness :
  ∃ t, dtw_table Example.euclidean Example.x Example.y = Ok t ∧
    ((∃ path, dtw 16 Example.x Example.y t = Ok path) ∨
     dtw 16 Example.x Example.y t = Raise UnboundLocalError).
Proof.
  refine (dtw_on_own_table_returns_or_unbound Example.euclidean Example.x Example.y
            16 _ _).
  - lia.
  - simpl. lia.
Defined.

(** ** Tables that are not the table of the sequences *)

Section ForeignTables.
Context {R : Type} `{Num R}.
Implicit Types (t : table R).

(** Once [step] holds the current state, a state whose three candidates
    are all infinite is entered again and again. *)
Lemma dtw_loop_stale_step t (fuel : nat) (i j : Z) (path : list (Z * Z)) :
  (0 <? i) || (0 <? j) = true →
  getitem2 t (i - 1) j = Ok Inf →
  getitem2 t i (j - 1) = Ok Inf →
  getitem2 t (i - 1) (j - 1) = Ok Inf →
  dtw_loop fuel t i j (Some (i, j)) path = Timeout.
Proof.
  intros Hcond Ha Hb Hc. revert path.
  induction fuel as [|fuel IH]; intros path; [done|].
  simpl. rewrite Hcond. unfold dtw_body. rewrite Ha, Hb, Hc. simpl. apply IH.
Qed.
End ForeignTables.

(** X8: [dtw] does not treat a dead end after its first step as an
    error.  When the first iteration steps to a state that is not the
    origin and whose three candidates are all infinite, [step] keeps its
    value, the same state is inserted into the path again and again, and
    the loop never returns, whatever the bound on its iterations. *)
Theorem dtw_dead_end_never_returns
    {R : Type} `{Num R} {obs : Type} (x y : list obs) (t : table R)
    (i j : Z) (fuel : nat) :
  x ≠ [] ∨ y ≠ [] →
  dtw_body t (Z.of_nat (length x)) (Z.of_nat (length y)) None = Ok (Some (i, j)) →
  0 < i ∨ 0 < j →
  getitem2 t (i - 1) j = Ok Inf →
  getitem2 t i (j - 1) = Ok Inf →
  getitem2 t (i - 1) (j - 1) = Ok Inf →
  dtw fuel x y t = Timeout.
Proof.
  intros Hne Hfirst Hij Ha Hb Hc. unfold dtw.
  destruct fuel as [|fuel]; [done|]. simpl.
  assert (Hcond : (0 <? Z.of_nat (length x)) || (0 <? Z.of_nat (length y)) = true).
  { apply orb_true_iff.
    destruct Hne as [Hx|Hy]; [left|right]; apply Z.ltb_lt.
    - destruct x; [done|simpl; lia].
    - destruct y; [done|simpl; lia]. }
  rewrite Hcond, Hfirst. simpl.
  apply dtw_loop_stale_step; try done.
  apply orb_true_iff. destruct Hij; [left|right]; by apply Z.ltb_lt.
Qed.

(** A table whose cell [(1, 1)] is cut off from the origin. *)
Lemma dtw_dead_end_witness :
  dtw 1000 [0; 0] [0] [[Inf; Inf]; [Inf; Fin 1]; [Inf; Fin 5]] = Timeout.
Proof.
  refine (dtw_dead_end_never_returns [0; 0] [0]
            [[Inf; Inf]; [Inf; Fin 1]; [Inf; Fin 5]] 1 1 1000 _ _ _ _ _ _).
  - left. discriminate.
  - reflexivity.
  - lia.
  - reflexivity.
  - reflexivity.
  - reflexivity.
Defined.

(** X9: [dtw] does not check the shape of the table.  With fewer rows
    than [x] has elements, the first read, [table[i-1, j]], raises
    [IndexError]. *)
Theorem dtw_short_table_raises_index_error
    {R : Type} `{Num R} {obs : Type} (x y : list obs) (t : table R) (fuel : nat) :
  (length t < length x)%nat →
  dtw (S fuel) x y t = Raise IndexError.
Proof.
  intros Hlen. unfold dtw. simpl.
  assert (Hcond : (0 <? Z.of_nat (length x)) || (0 <? Z.of_nat (length y)) = true).
  { apply orb_true_iff. left. apply Z.ltb_lt. lia. }
  rewrite Hcond. unfold dtw_body, getitem2.
  rewrite getitem_nonneg by lia.
  by rewrite lookup_ge_None_2 by lia.
Qed.

Lemma dtw_short_table_witness :
  dtw 1 Example.x Example.y (take 5 Example.cost_table) = Raise IndexError.
Proof.
  refine (dtw_short_table_raises_index_error Example.x Example.y
            (take 5 Example.cost_table) 0 _).
  simpl. lia.
Defined.

(** ** The check of the notebook *)

Lemma norm_index_minus_one (n : nat) : norm_index (S n) (-1) = Ok n.
Proof.
  rewrite norm_index_neg by lia.
  destruct (Z.leb_spec (- Z.of_nat (S n)) (-1)); [|lia].
  f_equal. lia.
Qed.

Lemma norm_index_last (n : nat) : norm_index (S n) (Z.of_nat n) = Ok n.
Proof.
  rewrite norm_index_nonneg by lia.
  destruct (Z.ltb_spec (Z.of_nat n) (Z.of_nat (S n))); [|lia].
  f_equal. lia.
Qed.

(** [l[-1]] is the last element. *)
Lemma getitem_minus_one {A} (l : list A) :
  l ≠ [] → ∃ a, getitem l (-1) = Ok a ∧ last l = Some a.
Proof.
  intros Hl. destruct l as [|a0 l] using rev_ind; [done|]. clear IHl.
  exists a0. split; [|by rewrite last_snoc].
  unfold getitem. rewrite length_app. simpl.
  replace (length l + 1)%nat with (S (length l)) by lia.
  rewrite norm_index_minus_one. simpl.
  by rewrite lookup_app_r, Nat.sub_diag by lia.
Qed.

Section CheckSum.
Context {R : Type} `{Num R}.
Context {obs : Type}.
Variable distance : obs → obs → R.
Variables x y : list obs.

(** On cells with positive indices the check adds what [path_cost] adds. *)
Lemma check_sum_from_positive (w : list (Z * Z)) (acc : cost R) :
  (∀ c, c ∈ w → 1 ≤ c.1 ∧ 1 ≤ c.2) →
  check_sum_from distance x y w acc = path_cost_from distance x y w acc.
Proof.
  revert acc. induction w as [|[i j] w IH]; intros acc Hw; [done|].
  destruct (Hw (i, j)) as [Hi Hj]; [by left|]. simpl in Hi, Hj. simpl.
  destruct (Z.leb_spec 0 i); [|lia]. destruct (Z.leb_spec 0 j); [|lia].
  destruct (Z.ltb_spec 0 i); [|lia]. destruct (Z.ltb_spec 0 j); [|lia]. simpl.
  destruct (getitem x (i - 1)); simpl; try done.
  destruct (getitem y (j - 1)); simpl; try done.
  apply IH. intros c Hc. apply Hw. by right.
Qed.
End CheckSum.

(** X10: the check cell of the notebook sums over the path elements with
    [i >= 0 and j >= 0], so it also counts [(0, 0)], as
    [distance(x[-1], y[-1])], and counts it first.  For non-empty [x] and
    [y] whose final cost [table[-1, -1]] is finite, the sum of the
    distances along the path, started from [0], is [table[-1, -1]]; the
    result of the check is the same sum started from
    [0 + distance(x[-1], y[-1])], and it is [table[-1, -1]] when the
    distance between the last elements of [x] and [y] is zero. *)
Theorem notebook_check_adds_last_distance
    {R : Type} `{NumLaws R} `{!AddLaws R} {obs : Type}
    (distance : obs → obs → R) (x y : list obs) (t : table R) (c : R)
    (fuel : nat) :
  x ≠ [] → y ≠ [] →
  dtw_table distance x y = Ok t →
  getitem2 t (-1) (-1) = Ok (Fin c) →
  (length x + length y ≤ fuel)%nat →
  ∃ w xl yl,
    dtw fuel x y t = Ok ((0, 0) :: w) ∧
    getitem x (-1) = Ok xl ∧ getitem y (-1) = Ok yl ∧
    path_cost_from distance x y w (Fin zero) = Ok (Fin c) ∧
    check_sum distance x y ((0, 0) :: w) =
      path_cost_from distance x y w (add zero (distance xl yl)) ∧
    (distance xl yl = zero →
     check_sum distance x y ((0, 0) :: w) = Ok (Fin c)).
Proof.
  intros Hx Hy Htab Hlast Hfuel.
  destruct (dtw_table_spec distance x y) as (t' & Ht' & Hspec).
  assert (t' = t) as -> by congruence.
  assert (Hc : getitem2 t (Z.of_nat (length x)) (Z.of_nat (length y)) = Ok (Fin c)).
  { rewrite (getitem2_norm _ _ _ _ _ (fl_shape _ _ _ _ _ _ Hspec)).
    rewrite (getitem2_norm _ _ _ _ _ (fl_shape _ _ _ _ _ _ Hspec)) in Hlast.
    by rewrite !norm_index_minus_one, <-!norm_index_last in Hlast. }
  pose proof (final_cell_live distance x y t Hspec c Hx Hy Hc) as Hlive.
  destruct (dtw_run_warping_path distance x y t Hspec fuel Hlive Hfuel)
    as (w & Hrun & _ & _ & _ & _ & Hint & _ & _).
  destruct (dtw_run_cost distance x y t Hspec fuel Hlive Hfuel)
    as (path & Hrun' & s & Hs & Hcell).
  assert (path = (0, 0) :: w) as -> by congruence.
  assert (s = Fin c) as -> by congruence.
  destruct (getitem_minus_one x Hx) as (xl & Hxl & _).
  destruct (getitem_minus_one y Hy) as (yl & Hyl & _).
  assert (Hcheck : check_sum distance x y ((0, 0) :: w) =
            path_cost_from distance x y w (add zero (distance xl yl))).
  { unfold check_sum. simpl. change (0 - 1) with (-1). rewrite Hxl, Hyl. simpl.
    apply check_sum_from_positive.
    intros a [k Hk]%list_elem_of_lookup.
    destruct (Hint (S k) a) as [? ?]; [lia|done|lia]. }
  exists w, xl, yl. split_and!; try done.
  intros Hzero. by rewrite Hcheck, Hzero, add_zero_zero.
Qed.

Lemma notebook_check_witness :
  ∃ w xl yl,
    dtw 16 Example.x Example.y Example.cost_table = Ok ((0, 0) :: w) ∧
    getitem Example.x (-1) = Ok xl ∧ getitem Example.y (-1) = Ok yl ∧
    path_cost_from Example.euclidean Example.x Example.y w (Fin zero) =
      Ok (Fin 10) ∧
    check_sum Example.euclidean Example.x Example.y ((0, 0) :: w) =
      path_cost_from Example.euclidean Example.x Example.y w
        (add zero (Example.euclidean xl yl)) ∧
    (Example.euclidean xl yl = zero →
     check_sum Example.euclidean Example.x Example.y ((0, 0) :: w) = Ok (Fin 10)).
Proof.
  refine (notebook_check_adds_last_distance Example.euclidean Example.x Example.y
            Example.cost_table 10 16 _ _ _ _ _).
  - discriminate.
  - discriminate.
  - vm_compute. reflexivity.
  - vm_compute. reflexivity.
  - simpl. lia.
Defined.

(** * Concatenating segments *)

Section SegmentsLemmas.
Context {sample : Type}.
Variable silence : sample.
Implicit Types (segments : list (list sample)) (pad : Z).

(** One padded segment. *)
Definition padded (pad : Z) (segment : list sample) : list sample :=
  segment ++ replicate (Z.to_nat pad) silence.

Lemma padded_segments_negative segments pad :
  pad < 0 → segments ≠ [] → padded_segments silence segments pad = ValueError.
Proof.
  intros Hpad Hne. destruct segments as [|segment segments]; [done|].
  simpl. unfold np_zeros. by destruct (Z.ltb_spec pad 0); [|lia].
Qed.

Lemma padded_segments_nonneg segments pad :
  0 ≤ pad → padded_segments silence segments pad = Array (padded pad <$> segments).
Proof.
  intros Hpad. induction segments as [|segment segments IH]; [done|].
  simpl. unfold np_zeros. destruct (Z.ltb_spec pad 0); [lia|]. simpl.
  rewrite IH. simpl. by rewrite app_nil_r.
Qed.

(** What the function returns when it returns. *)
Lemma concatenate_segments_nonneg segments pad :
  0 ≤ pad → segments ≠ [] →
  concatenate_segments silence segments pad = Array (concat (padded pad <$> segments)).
Proof.
  intros Hpad Hne. unfold concatenate_segments.
  rewrite padded_segments_nonneg by done. simpl.
  by destruct segments.
Qed.

(** Without a segment, or with a negative padding, numpy refuses. *)
Lemma concatenate_segments_refused segments pad :
  segments = [] ∨ pad < 0 → concatenate_segments silence segments pad = ValueError.
Proof.
  intros [->|Hpad]; [done|].
  destruct segments as [|segment segments]; [done|].
  unfold concatenate_segments. by rewrite padded_segments_negative.
Qed.

Lemma length_concat_padded segments pad :
  length (concat (padded pad <$> segments)) =
    (sum_list (length <$> segments) + length segments * Z.to_nat pad)%nat.
Proof.
  induction segments as [|segment segments IH]; [done|].
  rewrite !fmap_cons. cbn [concat]. rewrite length_app, IH. unfold padded.
  rewrite length_app, length_replicate. simpl. lia.
Qed.
End SegmentsLemmas.

(** X11: [concatenate_segments] raises [ValueError] when there is no
    segment ([numpy.concatenate] of an empty list) and when the padding
    is negative ([numpy.zeros] of a negative length). *)
Theorem concatenate_segments_raises_value_error
    {sample : Type} (silence : sample) (segments : list (list sample)) (pad : Z) :
  segments = [] ∨ pad < 0 →
  concatenate_segments silence segments pad = ValueError.
Proof. apply concatenate_segments_refused. Qed.

Lemma concatenate_segments_raises_witness :
  concatenate_segments 0 [[1; 2]; [3]] (-1) = ValueError.
Proof.
  refine (concatenate_segments_raises_value_error 0 [[1; 2]; [3]] (-1) _).
  right. lia.
Defined.

(** X12: the signal returned holds every sample of every segment and
    [pad] samples of silence per segment: its length is the sum of the
    lengths of the segments plus [pad] times their number. *)
Theorem concatenate_segments_length
    {sample : Type} (silence : sample) (segments : list (list sample)) (pad : Z)
    (signal : list sample) :
  concatenate_segments silence segments pad = Array signal →
  Z.of_nat (length signal) =
    Z.of_nat (sum_list (length <$> segments)) + Z.of_nat (length segments) * pad.
Proof.
  intros Hret.
  assert (Hok : ¬ (segments = [] ∨ pad < 0)).
  { intros Hbad. apply (concatenate_segments_refused silence) in Hbad. congruence. }
  rewrite concatenate_segments_nonneg in Hret by (try lia; tauto).
  injection Hret as <-. rewrite length_concat_padded. lia.
Qed.

Lemma concatenate_segments_length_witness :
  Z.of_nat (length [1; 2; 0; 0; 3; 0; 0]) =
    Z.of_nat (sum_list (length <$> [[1; 2]; [3]])) + Z.of_nat (length [[1; 2]; [3]]) * 2.
Proof.
  refine (concatenate_segments_length 0 [[1; 2]; [3]] 2 [1; 2; 0; 0; 3; 0; 0] _).
  reflexivity.
Defined.

(** X13: every segment can be read back from the signal.  The segment
    number [k] starts where the [k] segments before it and their padding
    end, and it is followed by [pad] samples of silence. *)
Theorem concatenate_segments_recovers_segment
    {sample : Type} (silence : sample) (segments : list (list sample)) (pad : Z)
    (signal : list sample) (k : nat) (segment : list sample) :
  concatenate_segments silence segments pad = Array signal →
  segments !! k = Some segment →
  let start := (sum_list (length <$> take k segments) + k * Z.to_nat pad)%nat in
  take (length segment) (drop start signal) = segment ∧
  take (Z.to_nat pad) (drop (start + length segment) signal) =
    replicate (Z.to_nat pad) silence.
Proof.
  intros Hret Hk.
  assert (Hok : ¬ (segments = [] ∨ pad < 0)).
  { intros Hbad. apply (concatenate_segments_refused silence) in Hbad. congruence. }
  rewrite concatenate_segments_nonneg in Hret by (try lia; tauto).
  injection Hret as <-. clear Hok. cbv zeta.
  assert (Hsig : concat (padded silence pad <$> segments) =
                 concat (padded silence pad <$> take k segments) ++
                 (segment ++ replicate (Z.to_nat pad) silence) ++
                 concat (padded silence pad <$> drop (S k) segments)).
  { rewrite <-(take_drop_middle _ _ _ Hk) at 1.
    by rewrite fmap_app, concat_app. }
  rewrite Hsig.
  assert (Hlen : length (concat (padded silence pad <$> take k segments)) =
                 (sum_list (length <$> take k segments) + k * Z.to_nat pad)%nat).
  { rewrite length_concat_padded. rewrite length_take_le; [done|].
    apply lookup_lt_Some in Hk. lia. }
  rewrite <-Hlen. split.
  - rewrite drop_app_length, <-app_assoc. by rewrite take_app_length.
  - rewrite drop_app_add, <-app_assoc, drop_app_length.
    rewrite take_app_length'; [done|by rewrite length_replicate].
Qed.

Lemma concatenate_segments_recovers_witness :
  take (length [3]) (drop 4 [1; 2; 0; 0; 3; 0; 0]) = [3] ∧
  take 2 (drop (4 + length [3]) [1; 2; 0; 0; 3; 0; 0]) = [0; 0].
Proof.
  refine (concatenate_segments_recovers_segment 0 [[1; 2]; [3]] 2
            [1; 2; 0; 0; 3; 0; 0] 1 [3] _ _).
  - reflexivity.
  - reflexivity.
Defined.

(** X14: concatenating the segments of two non-empty lists in one call
    gives the signal of the first list followed by the signal of the
    second. *)
Theorem concatenate_segments_app
    {sample : Type} (silence : sample) (segments1 segments2 : list (list sample))
    (pad : Z) (signal1 signal2 : list sample) :
  concatenate_segments silence segments1 pad = Array signal1 →
  concatenate_segments silence segments2 pad = Array signal2 →
  concatenate_segments silence (segments1 ++ segments2) pad = Array (signal1 ++ signal2).
Proof.
  intros Hret1 Hret2.
  assert (Hok1 : ¬ (segments1 = [] ∨ pad < 0)).
  { intros Hbad. apply (concatenate_segments_refused silence) in Hbad. congruence. }
  assert (Hok2 : ¬ (segments2 = [] ∨ pad < 0)).
  { intros Hbad. apply (concatenate_segments_refused silence) in Hbad. congruence. }
  rewrite concatenate_segments_nonneg in Hret1, Hret2 by (try lia; tauto).
  injection Hret1 as <-. injection Hret2 as <-.
  rewrite concatenate_segments_nonneg; [|lia|].
  - by rewrite fmap_app, concat_app.
  - destruct segments1; [tauto|done].
Qed.

Lemma concatenate_segments_app_witness :
  concatenate_segments 0 ([[1; 2]] ++ [[3]]) 2 = Array ([1; 2; 0; 0] ++ [3; 0; 0]).
Proof.
  refine (concatenate_segments_app 0 [[1; 2]] [[3]] 2 [1; 2; 0; 0] [3; 0; 0] _ _).
  - reflexivity.
  - reflexivity.
Defined.
